(** * Day 2 report validator (src/Py/day-02.py): a shallow embedding

    [is_safe] and the two [safe_count] aggregates of the script are
    embedded as functions over Python lists of unbounded integers
    ([list Z]).  List indexing can raise [IndexError] in Python, so every
    computation lives in a small exception monad; slices and [range]
    follow Python's clamping rules; the set comprehension builds a
    [gset Z]. *)

From stdpp Require Import base list gmap sets.
From stdpp Require Import sorting.
From Stdlib Require Import ZArith Lia.

Local Open Scope Z_scope.

(** ** Exceptions *)

Module Py.

Inductive exn : Set := IndexError.

Inductive result (A : Type) : Type :=
| Ok (a : A)
| Raise (e : exn).

Arguments Ok {A} a.
Arguments Raise {A} e.

(** Sequencing: an exception skips the rest of the computation. *)
#[export] Instance result_bind : MBind result := λ A B k m,
  match m with
  | Ok a => k a
  | Raise e => Raise e
  end.

(** ** Built-ins used by the script *)

(** [len(l)] *)
Definition len {A : Type} (l : list A) : Z := Z.of_nat (length l).

(** [range(n)]: 0, 1, ..., n-1; empty when [n <= 0]. *)
Definition range (n : Z) : list Z := Z.of_nat <$> seq 0 (Z.to_nat n).

(** [l[i]]: a negative index counts from the end; an index outside the
    list raises [IndexError]. *)
Definition index {A : Type} (l : list A) (i : Z) : result A :=
  let j := if i <? 0 then i + len l else i in
  if (j <? 0) || (len l <=? j) then Raise IndexError
  else match l !! Z.to_nat j with
       | Some x => Ok x
       | None => Raise IndexError
       end.

(** A slice bound is clamped into [0, len(l)], a negative one counting
    from the end; slices never raise. *)
Definition clamp {A : Type} (l : list A) (i : Z) : nat :=
  Z.to_nat (if i <? 0 then Z.max 0 (i + len l) else Z.min i (len l)).

(** [l[:hi]] *)
Definition slice_to {A : Type} (l : list A) (hi : Z) : list A :=
  take (clamp l hi) l.

(** [l[lo:]] *)
Definition slice_from {A : Type} (l : list A) (lo : Z) : list A :=
  drop (clamp l lo) l.

(** [[f(i) for i in l]], elements evaluated left to right; the first
    exception aborts the comprehension. *)
Fixpoint list_comp {A B : Type} (f : A → result B) (l : list A)
  : result (list B) :=
  match l with
  | [] => Ok []
  | a :: l' => b ← f a; bs ← list_comp f l'; Ok (b :: bs)
  end.

(** [{f(i) for i in l}] *)
Fixpoint set_comp {A : Type} (f : A → result Z) (l : list A)
  : result (gset Z) :=
  match l with
  | [] => Ok ∅
  | a :: l' => x ← f a; s ← set_comp f l'; Ok ({[ x ]} ∪ s)
  end.

(** [any(bs)] *)
Definition any (bs : list bool) : bool := existsb id bs.

(** [sum(bs)] over booleans: [True] counts 1, [False] counts 0. *)
Definition sum (bs : list bool) : Z :=
  foldl (fun acc (b : bool) => acc + (if b then 1 else 0)) 0 bs.

End Py.

Import Py.

(** ** The script *)

(** [inc = {row[i + 1] - row[i] for i in range(len(row) - 1)}] *)
Definition inc (row : list Z) : result (gset Z) :=
  set_comp (fun i => a ← index row (i + 1); b ← index row i; Ok (a - b))
           (range (len row - 1)).

(** [def is_safe(row)] *)
Definition is_safe (row : list Z) : result bool :=
  inc ← inc row;
  let is_positive_safe := bool_decide (inc ⊆ ({[ 1; 2; 3 ]} : gset Z)) in
  let is_negative_safe := bool_decide (inc ⊆ ({[ -1; -2; -3 ]} : gset Z)) in
  Ok (is_positive_safe || is_negative_safe).

(** Part 1: [safe_count = sum(is_safe(row) for row in data)] *)
Definition safe_count_part1 (data : list (list Z)) : result Z :=
  bs ← list_comp is_safe data; Ok (sum bs).

(** The per-row expression of part 2:
    [any([is_safe(row[:i] + row[i + 1 :]) for i in range(len(row))])] *)
Definition any_removal_safe (row : list Z) : result bool :=
  bs ← list_comp (fun i => is_safe (slice_to row i ++ slice_from row (i + 1)))
                 (range (len row));
  Ok (any bs).

(** Part 2: [safe_count = sum(any([...]) for row in data)] *)
Definition safe_count_part2 (data : list (list Z)) : result Z :=
  bs ← list_comp any_removal_safe data; Ok (sum bs).

(** The six reports of the worked example. *)
Definition example_data : list (list Z) :=
  [ [7; 6; 4; 2; 1]; [1; 2; 7; 8; 9]; [9; 7; 6; 2; 1];
    [1; 3; 2; 4; 5]; [8; 6; 4; 4; 1]; [1; 3; 6; 7; 9] ].

(** ** Vocabulary of the specification *)

(** [d] is a consecutive difference of [row]: [d = row[i+1] - row[i]]
    for some adjacent positions [i], [i+1] of the list. *)
Definition is_step (row : list Z) (d : Z) : Prop :=
  ∃ (i : nat) (x y : Z), row !! i = Some x ∧ row !! S i = Some y ∧ d = y - x.

Definition increasing_step (d : Z) : Prop := d = 1 ∨ d = 2 ∨ d = 3.
Definition decreasing_step (d : Z) : Prop := d = -1 ∨ d = -2 ∨ d = -3.

(** Every consecutive difference of [row] satisfies [P]. *)
Definition all_steps (P : Z → Prop) (row : list Z) : Prop :=
  ∀ d, is_step row d → P d.

(** The set of consecutive differences lies within {1,2,3} or within
    {-1,-2,-3}. *)
Definition safe_steps (row : list Z) : Prop :=
  all_steps increasing_step row ∨ all_steps decreasing_step row.

(** ** Auxiliary definitions of the proofs *)

(** The difference the comprehension computes at position [i]. *)
Definition step_at (row : list Z) (i : Z) : Z :=
  row !!! Z.to_nat (i + 1) - row !!! Z.to_nat i.

(** The candidate the comprehension tests at position [i]. *)
Definition candidate (row : list Z) (i : Z) : list Z :=
  slice_to row i ++ slice_from row (i + 1).

(** The answer [is_safe] gives, as a plain boolean. *)
Definition safe_verdict (row : list Z) : bool :=
  match is_safe row with
  | Ok b => b
  | Raise _ => false
  end.

(** The answer the one-removal search gives, as a plain boolean. *)
Definition removal_verdict (row : list Z) : bool :=
  match any_removal_safe row with
  | Ok b => b
  | Raise _ => false
  end.

(** Results of computations can be compared. *)
#[export] Instance exn_eq_dec : EqDecision exn.
Proof. solve_decision. Defined.

#[export] Instance result_eq_dec {A : Type} `{EqDecision A} :
  EqDecision (result A).
Proof. solve_decision. Defined.

(** The rows of [data] that part 1 counts, and those that part 2 counts. *)
Definition safe_rows (data : list (list Z)) : list (list Z) :=
  filter (λ row, is_safe row = Ok true) data.

Definition tolerated_rows (data : list (list Z)) : list (list Z) :=
  filter (λ row, any_removal_safe row = Ok true) data.

(** ** Day 1 (src/Py/day-01.py): the two list scores

    The script reads a flat list of integers, takes the elements at even
    positions as one column and those at odd positions as the other,
    sorts both, and prints two sums.  None of these operations raises. *)

Module Day01.

(** Walk down [l]: drop [skip] elements, keep one, and from then on keep
    one element after every [gap] dropped ones. *)
Fixpoint stride {A : Type} (skip gap : nat) (l : list A) : list A :=
  match l with
  | [] => []
  | x :: l' =>
      match skip with
      | O => x :: stride gap gap l'
      | S k => stride k gap l'
      end
  end.

(** [l[lo::step]] for [step >= 1]: the elements at positions [lo],
    [lo + step], [lo + 2 * step], ... below [len(l)]. *)
Definition slice_step {A : Type} (l : list A) (lo step : Z) : list A :=
  stride (clamp l lo) (Z.to_nat (step - 1)) l.

(** [sorted(l)] on integers: the ascending rearrangement of [l]. *)
Definition sorted (l : list Z) : list Z := merge_sort Z.le l.

(** [sum(xs)] over integers. *)
Definition sum_int (xs : list Z) : Z := foldl Z.add 0 xs.

(** [l.count(a)] *)
Definition count (l : list Z) (a : Z) : Z := len (filter (λ b, b = a) l).

(** [A, B = sorted(data[0::2]), sorted(data[1::2])] *)
Definition columns (data : list Z) : list Z * list Z :=
  (sorted (slice_step data 0 2), sorted (slice_step data 1 2)).

(** [sum(map(lambda a, b: abs(a - b), A, B))]; [map] over two lists
    stops at the end of the shorter one. *)
Definition total_distance (data : list Z) : Z :=
  let '(A, B) := columns data in
  sum_int (zip_with (λ a b, Z.abs (a - b)) A B).

(** [sum(map(lambda a: a * B.count(a), A))] *)
Definition similarity_score (data : list Z) : Z :=
  let '(A, B) := columns data in
  sum_int ((λ a, a * count B a) <$> A).

(** What the script prints. *)
Definition output (data : list Z) : Z * Z :=
  (total_distance data, similarity_score data).

(** The flat list read from a file whose lines each hold a left and a
    right number. *)
Definition interleave (rows : list (Z * Z)) : list Z :=
  rows ≫= λ r, [r.1; r.2].

(** The sum of the distances between the numbers of two lists paired
    position by position, without sorting. *)
Definition pair_distance (L R : list Z) : Z :=
  sum_int (zip_with (λ a b, Z.abs (a - b)) L R).

(** The sum of the numbers of [L], each multiplied by how often it occurs
    in [R], without sorting. *)
Definition weighted_count (L R : list Z) : Z :=
  sum_int ((λ a, a * count R a) <$> L).

(** The sum of the distances within every row. *)
Definition row_distance (rows : list (Z * Z)) : Z :=
  sum_int ((λ r, Z.abs (r.1 - r.2)) <$> rows).

End Day01.

(** ** Reading the input (src/Py/day-02.py, lines 31-43)

    A Python [str] is a sequence of characters.  The script only needs
    the characters [" "] and ["\n"], the white space test that
    [str.strip()] applies to a character, and the built-in [int], which
    raises [ValueError] on a string that is not a numeral: [int s = None]
    stands for that exception.  These are the fields of [Text]; the
    string operations themselves are defined below. *)

Module Parse.

Class Text (char : Type) := {
  char_eq_dec :: EqDecision char;
  space : char;
  newline : char;
  isspace : char → bool;
  int : list char → option Z
}.

Section defs.
Context {char : Type} `{Text char}.

(** [s.lstrip()]: drop the leading white space. *)
Fixpoint lstrip (s : list char) : list char :=
  match s with
  | [] => []
  | c :: s' => if isspace c then lstrip s' else s
  end.

(** [s.rstrip()]: drop the trailing white space. *)
Definition rstrip (s : list char) : list char :=
  reverse (lstrip (reverse s)).

(** [s.strip()] *)
Definition strip (s : list char) : list char := rstrip (lstrip s).

(** [s.split(sep)] for a separator of one character: the pieces between
    the occurrences of [sep], empty pieces included; the result is never
    the empty list. *)
Fixpoint split (sep : char) (s : list char) : list (list char) :=
  match s with
  | [] => [[]]
  | c :: s' =>
      if decide (c = sep) then [] :: split sep s'
      else match split sep s' with
           | w :: ws => (c :: w) :: ws
           | [] => [[c]]
           end
  end.

(** [[int(y) for y in x.strip().split(" ") if y]] *)
Definition parse_row (x : list char) : option (list Z) :=
  mapM int (filter (λ y, y ≠ []) (split space (strip x))).

(** [data = [... for x in open(...).read().strip().split("\n")]], as a
    function of the content of the file. *)
Definition data (content : list char) : option (list (list Z)) :=
  mapM parse_row (split newline (strip content)).

(** A line as the input format allows it: [lead] spaces, a word, then
    words each preceded by one space or more, then [trail] spaces. *)
Definition packed_line (w : list char) (rest : list (nat * list char))
  : list char :=
  w ++ concat ((λ kv, replicate (S kv.1) space ++ kv.2) <$> rest).

Definition spaced_line (lead : nat) (w : list char)
    (rest : list (nat * list char)) (trail : nat) : list char :=
  replicate lead space ++ packed_line w rest ++ replicate trail space.

(** The strings that [parse_row] hands to [int]. *)
Definition tokens (x : list char) : list (list char) :=
  filter (λ y, y ≠ []) (split space (strip x)).

(** A word of a line: not empty and free of white space. *)
Definition word (w : list char) : Prop :=
  w ≠ [] ∧ Forall (λ c, isspace c = false) w.

(** The lines joined by ["\n"]. *)
Fixpoint join_lines (lines : list (list char)) : list char :=
  match lines with
  | [] => []
  | [x] => x
  | x :: lines' => x ++ newline :: join_lines lines'
  end.

(** [s.split()], without a separator (src/Py/day-01.py, line 11): the
    maximal runs of characters that are not white space, in order; no
    piece is empty. *)
Fixpoint split_white (s : list char) : list (list char) :=
  match s with
  | [] => []
  | c :: s' =>
      if isspace c then split_white s'
      else match s' with
           | [] => [[c]]
           | c' :: _ =>
               if isspace c' then [c] :: split_white s'
               else match split_white s' with
                    | w :: ws => (c :: w) :: ws
                    | [] => [[c]]
                    end
           end
  end.

(** Day 1: [data = [*map(int, open(...).read().split())]], as a function
    of the content of the file. *)
Definition flat_data (content : list char) : option (list Z) :=
  mapM int (split_white content).

(** A run of white space between two words: not empty, white space
    only. *)
Definition gap (g : list char) : Prop :=
  g ≠ [] ∧ Forall (λ c, isspace c = true) g.

(** A text as Day 1 reads it: white space [lead], a word, then words each
    preceded by a gap, then white space [trail]. *)
Definition white_text (lead w : list char)
    (rest : list (list char * list char)) (trail : list char) : list char :=
  lead ++ w ++ concat ((λ gv, gv.1 ++ gv.2) <$> rest) ++ trail.

End defs.

(** A small instance to run the definitions on: characters are code
    points, the white space characters are the ASCII ones only, and [int]
    reads one decimal digit only. *)
#[local] Instance ascii_digits : Text Z := {|
  space := 32;
  newline := 10;
  isspace c := bool_decide (9 ≤ c ≤ 13 ∨ c = 32);
  int s := match s with
           | [c] => if bool_decide (48 ≤ c ≤ 57) then Some (c - 48) else None
           | _ => None
           end
|}.

End Parse.

(** ** The built-ins *)

Section builtins.
Context {A : Type}.
Implicit Types (l : list A) (i : nat).

Lemma index_lookup l i x : l !! i = Some x → index l (Z.of_nat i) = Ok x.
Proof.
  intros Hx. pose proof (lookup_lt_Some _ _ _ Hx) as Hlt.
  unfold index, len.
  assert ((Z.of_nat i <? 0) = false) as Hneg by (apply Z.ltb_ge; lia).
  assert ((Z.of_nat (length l) <=? Z.of_nat i) = false) as Hlow
    by (apply Z.leb_gt; lia).
  rewrite Hneg. cbv zeta iota. by rewrite Hneg, Hlow, Nat2Z.id, Hx.
Qed.

Lemma index_in_bounds l i : (i < length l)%nat → ∃ x, index l (Z.of_nat i) = Ok x.
Proof.
  intros Hlt. destruct (lookup_lt_is_Some_2 l i Hlt) as [x Hx].
  exists x. by apply index_lookup.
Qed.

Lemma clamp_of_nat l i : (i ≤ length l)%nat → clamp l (Z.of_nat i) = i.
Proof.
  intros Hle. unfold clamp, len.
  destruct (Z.ltb_spec (Z.of_nat i) 0) as [?|_]; lia.
Qed.

(** The candidate of part 2 at position [i] is the list without its
    [i]-th element. *)
Lemma slices_delete l i :
  (i < length l)%nat →
  slice_to l (Z.of_nat i) ++ slice_from l (Z.of_nat i + 1) = delete i l.
Proof.
  intros Hlt. unfold slice_to, slice_from.
  replace (Z.of_nat i + 1) with (Z.of_nat (S i)) by lia.
  rewrite !clamp_of_nat by lia. symmetry. apply delete_take_drop.
Qed.
End builtins.

(** Indexing does raise outside the list, and counts from the end on a
    negative index. *)
Example index_out_of_range : index [7; 6; 4] 3 = Raise IndexError.
Proof. reflexivity. Qed.

Example index_negative : index [7; 6; 4] (-1) = Ok 4.
Proof. reflexivity. Qed.

Example index_empty : index ([] : list Z) 0 = Raise IndexError.
Proof. reflexivity. Qed.

Lemma elem_of_range (n i : Z) : i ∈ range n ↔ 0 ≤ i < n.
Proof.
  unfold range. rewrite list_elem_of_fmap. split.
  - intros (k & -> & Hk). apply elem_of_seq in Hk. lia.
  - intros Hi. exists (Z.to_nat i). split; [lia|]. apply elem_of_seq. lia.
Qed.

Lemma range_of_nat (n : nat) : range (Z.of_nat n) = Z.of_nat <$> seq 0 n.
Proof. unfold range. by rewrite Nat2Z.id. Qed.

Lemma set_comp_ok {A : Type} (f : A → result Z) (g : A → Z) (l : list A) :
  (∀ a, a ∈ l → f a = Ok (g a)) →
  set_comp f l = Ok (list_to_set (g <$> l)).
Proof.
  induction l as [|a l IH]; intros Hf; [done|].
  cbn. rewrite (Hf a) by left. cbn.
  rewrite IH; [done|]. intros b Hb. apply Hf. by right.
Qed.

Lemma list_comp_ok {A B : Type} (f : A → result B) (g : A → B) (l : list A) :
  (∀ a, a ∈ l → f a = Ok (g a)) →
  list_comp f l = Ok (g <$> l).
Proof.
  induction l as [|a l IH]; intros Hf; [done|].
  cbn. rewrite (Hf a) by left. cbn.
  rewrite IH; [done|]. intros b Hb. apply Hf. by right.
Qed.

Lemma any_true (bs : list bool) : any bs = true ↔ true ∈ bs.
Proof.
  unfold any. rewrite existsb_exists. split.
  - intros (b & Hin & Hb). unfold id in Hb. subst b. by apply list_elem_of_In.
  - intros Hin. exists true. split; [by apply list_elem_of_In|done].
Qed.

(** ** The increments of a row *)

Lemma inc_body_ok (row : list Z) (i : Z) :
  i ∈ range (len row - 1) →
  (a ← index row (i + 1); b ← index row i; Ok (a - b)) = Ok (step_at row i).
Proof.
  rewrite elem_of_range. unfold len, step_at. intros Hi.
  assert (Z.to_nat i < length row)%nat as Hlo by lia.
  assert (Z.to_nat (i + 1) < length row)%nat as Hhi by lia.
  apply list_lookup_lookup_total_lt, index_lookup in Hlo, Hhi.
  rewrite Z2Nat.id in Hlo, Hhi by lia.
  by rewrite Hhi, Hlo.
Qed.

Lemma is_step_step_at (row : list Z) (d : Z) :
  is_step row d ↔ ∃ i, i ∈ range (len row - 1) ∧ d = step_at row i.
Proof.
  unfold is_step, step_at, len. split.
  - intros (i & x & y & Hx & Hy & ->).
    pose proof (lookup_lt_Some _ _ _ Hy) as Hlt.
    exists (Z.of_nat i). rewrite elem_of_range. split; [lia|].
    replace (Z.of_nat i + 1) with (Z.of_nat (S i)) by lia.
    rewrite !Nat2Z.id.
    by rewrite (list_lookup_total_correct _ _ _ Hx),
               (list_lookup_total_correct _ _ _ Hy).
  - intros (i & Hi & ->). rewrite elem_of_range in Hi.
    exists (Z.to_nat i), (row !!! Z.to_nat i), (row !!! Z.to_nat (i + 1)).
    replace (S (Z.to_nat i)) with (Z.to_nat (i + 1)) by lia.
    split_and!; [| |done]; apply list_lookup_lookup_total_lt; lia.
Qed.

(** The comprehension never raises, and the set it builds holds exactly
    the consecutive differences of the row. *)
Lemma inc_ok (row : list Z) :
  ∃ s, inc row = Ok s ∧ ∀ d, d ∈ s ↔ is_step row d.
Proof.
  eexists. split.
  - apply (set_comp_ok _ (step_at row)). apply inc_body_ok.
  - intros d. rewrite elem_of_list_to_set, list_elem_of_fmap, is_step_step_at.
    split; intros (i & ? & ?); exists i; done.
Qed.

Lemma subseteq_increasing (s : gset Z) :
  s ⊆ {[ 1; 2; 3 ]} ↔ ∀ d, d ∈ s → increasing_step d.
Proof.
  unfold increasing_step. rewrite elem_of_subseteq.
  split; intros Hs d Hd; specialize (Hs d Hd);
    rewrite !elem_of_union, !elem_of_singleton in *; tauto.
Qed.

Lemma subseteq_decreasing (s : gset Z) :
  s ⊆ {[ -1; -2; -3 ]} ↔ ∀ d, d ∈ s → decreasing_step d.
Proof.
  unfold decreasing_step. rewrite elem_of_subseteq.
  split; intros Hs d Hd; specialize (Hs d Hd);
    rewrite !elem_of_union, !elem_of_singleton in *; tauto.
Qed.

(** [is_safe] returns a boolean, which is [True] exactly on the rows whose
    differences all lie in {1,2,3} or all lie in {-1,-2,-3}. *)
Lemma is_safe_ok (row : list Z) :
  ∃ b, is_safe row = Ok b ∧ (b = true ↔ safe_steps row).
Proof.
  destruct (inc_ok row) as (s & Hs & Hmem).
  unfold is_safe. rewrite Hs. cbn. eexists. split; [done|].
  rewrite orb_true_iff, !bool_decide_eq_true.
  rewrite subseteq_increasing, subseteq_decreasing.
  unfold safe_steps, all_steps. by setoid_rewrite Hmem.
Qed.

Lemma is_safe_true (row : list Z) : is_safe row = Ok true ↔ safe_steps row.
Proof.
  destruct (is_safe_ok row) as (b & -> & Hb). rewrite <- Hb.
  split; [by intros [= ->]|by intros ->].
Qed.

Lemma is_safe_false (row : list Z) : is_safe row = Ok false ↔ ¬ safe_steps row.
Proof.
  destruct (is_safe_ok row) as (b & -> & Hb). rewrite <- Hb.
  destruct b; split; (congruence || done || by intros []).
Qed.

(** Two rows with equivalent verdicts on their differences get the same
    answer from [is_safe]. *)
Lemma is_safe_ext (row row' : list Z) :
  (safe_steps row ↔ safe_steps row') → is_safe row = is_safe row'.
Proof.
  destruct (is_safe_ok row) as (b & -> & Hb).
  destruct (is_safe_ok row') as (b' & -> & Hb').
  rewrite <- Hb, <- Hb'. intros Hiff. f_equal.
  destruct b, b'; try done; [symmetry|]; by apply Hiff.
Qed.

(** ** Consecutive differences and list surgery *)

(** A difference is witnessed by two neighbours somewhere in the row. *)
Lemma is_step_split (row : list Z) (d : Z) :
  is_step row d ↔ ∃ l1 x y l2, row = l1 ++ x :: y :: l2 ∧ d = y - x.
Proof.
  split.
  - intros (i & x & y & Hx & Hy & ->).
    exists (take i row), x, y, (drop (S (S i)) row). split; [|done].
    rewrite <- (drop_S _ _ _ Hy). symmetry. by apply take_drop_middle.
  - intros (l1 & x & y & l2 & -> & ->).
    exists (length l1), x, y. split_and!; [| |done].
    + by rewrite list_lookup_middle.
    + rewrite lookup_app_r by lia.
      by replace (S (length l1) - length l1)%nat with 1%nat by lia.
Qed.

Lemma is_step_nil (d : Z) : ¬ is_step [] d.
Proof. by intros (i & x & y & Hx & _). Qed.

Lemma is_step_singleton (x d : Z) : ¬ is_step [x] d.
Proof. by intros (i & a & b & _ & Hb & _). Qed.

(** A prefix of a row has no new differences. *)
Lemma is_step_app_l (l1 l2 : list Z) (d : Z) :
  is_step l1 d → is_step (l1 ++ l2) d.
Proof.
  intros (i & x & y & Hx & Hy & ->). exists i, x, y.
  split_and!; [| |done]; by apply lookup_app_l_Some.
Qed.

(** Adding a constant to every element keeps the differences. *)
Lemma is_step_shift (c : Z) (row : list Z) (d : Z) :
  is_step ((λ x, x + c) <$> row) d ↔ is_step row d.
Proof.
  unfold is_step. split.
  - intros (i & x & y & Hx & Hy & ->).
    rewrite list_lookup_fmap in Hx, Hy.
    apply fmap_Some in Hx as (x' & Hx & ->).
    apply fmap_Some in Hy as (y' & Hy & ->).
    exists i, x', y'. split_and!; [done|done|lia].
  - intros (i & x & y & Hx & Hy & ->).
    exists i, (x + c), (y + c). rewrite !list_lookup_fmap, Hx, Hy.
    split_and!; [done|done|lia].
Qed.

(** Reading the row backwards negates every difference. *)
Lemma is_step_reverse (row : list Z) (d : Z) :
  is_step (reverse row) d → is_step row (- d).
Proof.
  rewrite !is_step_split. intros (l1 & x & y & l2 & Hrow & ->).
  exists (reverse l2), y, x, (reverse l1). split; [|lia].
  rewrite <- (reverse_involutive row), Hrow.
  rewrite reverse_app, !reverse_cons, <- !app_assoc. done.
Qed.

Lemma all_steps_reverse (P Q : Z → Prop) (row : list Z) :
  (∀ d, P d → Q (- d)) → all_steps P row → all_steps Q (reverse row).
Proof.
  intros HPQ Hall d Hd. apply is_step_reverse, Hall, HPQ in Hd.
  by rewrite Z.opp_involutive in Hd.
Qed.

Lemma increasing_opp (d : Z) : increasing_step d → decreasing_step (- d).
Proof. unfold increasing_step, decreasing_step. lia. Qed.

Lemma decreasing_opp (d : Z) : decreasing_step d → increasing_step (- d).
Proof. unfold increasing_step, decreasing_step. lia. Qed.

Lemma safe_steps_reverse (row : list Z) :
  safe_steps row → safe_steps (reverse row).
Proof.
  intros [Hup|Hdown]; [right|left].
  - exact (all_steps_reverse _ _ row increasing_opp Hup).
  - exact (all_steps_reverse _ _ row decreasing_opp Hdown).
Qed.

(** ** The one-removal search *)

Lemma is_safe_verdict (row : list Z) : is_safe row = Ok (safe_verdict row).
Proof. unfold safe_verdict. by destruct (is_safe_ok row) as (b & -> & _). Qed.

(** The search never raises; it answers [True] exactly when deleting the
    element at some position of the row leaves a safe row. *)
Lemma any_removal_safe_ok (row : list Z) :
  ∃ b, any_removal_safe row = Ok b ∧
       (b = true ↔
        ∃ i : nat, (i < length row)%nat ∧ is_safe (delete i row) = Ok true).
Proof.
  unfold any_removal_safe.
  rewrite (list_comp_ok _ (λ i, safe_verdict (candidate row i)))
    by (intros; apply is_safe_verdict).
  cbn. eexists. split; [done|].
  rewrite any_true, list_elem_of_fmap. unfold len. rewrite range_of_nat.
  split.
  - intros (? & Hsafe & (i & -> & Hi)%list_elem_of_fmap).
    apply elem_of_seq in Hi. exists i. split; [lia|].
    rewrite <- slices_delete by lia.
    by rewrite is_safe_verdict, Hsafe.
  - intros (i & Hi & Hsafe). exists (Z.of_nat i). split.
    + unfold candidate. rewrite slices_delete by done.
      rewrite is_safe_verdict in Hsafe. by injection Hsafe.
    + apply list_elem_of_fmap. exists i. split; [done|].
      apply elem_of_seq. lia.
Qed.

Lemma any_removal_safe_true (row : list Z) :
  any_removal_safe row = Ok true ↔
  ∃ i : nat, (i < length row)%nat ∧ is_safe (delete i row) = Ok true.
Proof.
  destruct (any_removal_safe_ok row) as (b & -> & Hb). rewrite <- Hb.
  split; [by intros [= ->]|by intros ->].
Qed.

(** Deleting the last element is the candidate at position [len(row) - 1]. *)
Lemma delete_last (row : list Z) :
  row ≠ [] → delete (length row - 1)%nat row = removelast row.
Proof.
  destruct row as [|x row _] using rev_ind; [done|]. intros _.
  rewrite removelast_last, length_app. cbn.
  replace (length row + 1 - 1)%nat with (length row) by lia.
  rewrite delete_middle. apply app_nil_r.
Qed.

Lemma is_step_removelast (row : list Z) (d : Z) :
  is_step (removelast row) d → is_step row d.
Proof.
  destruct row as [|x row _] using rev_ind; [done|].
  rewrite removelast_last. apply is_step_app_l.
Qed.

Lemma safe_steps_removelast (row : list Z) :
  safe_steps row → safe_steps (removelast row).
Proof.
  intros [Hall|Hall]; [left|right]; intros d Hd;
    by apply Hall, is_step_removelast.
Qed.

(** On a row that is not empty, a safe row passes the search: the
    candidate without the last element is safe too. *)
Lemma safe_any_removal_safe (row : list Z) :
  row ≠ [] → is_safe row = Ok true → any_removal_safe row = Ok true.
Proof.
  intros Hne Hsafe. apply any_removal_safe_true.
  exists (length row - 1)%nat. split.
  - destruct row; [done|]. cbn. lia.
  - rewrite delete_last by done.
    by apply is_safe_true, safe_steps_removelast, is_safe_true.
Qed.

(** ** The properties of the specification *)

(** C1: for every row, [is_safe] returns a boolean that is [True] if and
    only if the consecutive differences all lie in {1,2,3} or all lie in
    {-1,-2,-3}; a zero difference, a difference of absolute value above 3,
    or a positive difference together with a negative one gives [False]. *)
Theorem is_safe_iff_safe_steps (row : list Z) :
  (∃ b, is_safe row = Ok b ∧ (b = true ↔ safe_steps row))
  ∧ (is_step row 0 → is_safe row = Ok false)
  ∧ (∀ d, is_step row d → 3 < Z.abs d → is_safe row = Ok false)
  ∧ (∀ d1 d2, is_step row d1 → is_step row d2 → 0 < d1 → d2 < 0 →
              is_safe row = Ok false).
Proof.
  split_and!.
  - apply is_safe_ok.
  - intros H0. apply is_safe_false.
    intros [Hall|Hall]; apply Hall in H0; red in H0; lia.
  - intros d Hd Hbig. apply is_safe_false.
    intros [Hall|Hall]; apply Hall in Hd; red in Hd; lia.
  - intros d1 d2 Hd1 Hd2 Hpos Hneg. apply is_safe_false.
    intros [Hall|Hall]; [apply Hall in Hd2; red in Hd2|
                         apply Hall in Hd1; red in Hd1]; lia.
Qed.

Lemma is_safe_iff_safe_steps_witness :
  is_safe [4; 4] = Ok false ∧ is_safe [1; 5] = Ok false
  ∧ is_safe [1; 2; 1] = Ok false.
Proof.
  split_and!.
  - apply (is_safe_iff_safe_steps [4; 4]).
    exists 0%nat, 4, 4. split_and!; reflexivity.
  - apply (is_safe_iff_safe_steps [1; 5]) with (d := 4).
    + exists 0%nat, 1, 5. split_and!; reflexivity.
    + reflexivity.
  - apply (is_safe_iff_safe_steps [1; 2; 1]) with (d1 := 1) (d2 := -1).
    + exists 0%nat, 1, 2. split_and!; reflexivity.
    + exists 1%nat, 2, 1. split_and!; reflexivity.
    + reflexivity.
    + reflexivity.
Defined.

(** C2, as stated, fails on the empty row: [is_safe([])] is [True], yet
    the search has no candidate to try and answers [False]. *)
Lemma any_removal_safe_iff_counterexample :
  ¬ (any_removal_safe [] = Ok true ↔
     is_safe [] = Ok true
     ∨ ∃ i : nat, (i < length ([] : list Z))%nat
                  ∧ is_safe (delete i []) = Ok true).
Proof. intros [_ Hback]. by specialize (Hback (or_introl eq_refl)). Qed.

(** C2, amended: for every row that is not empty, the search returns a
    boolean that is [True] if and only if the row is already safe or
    deleting the element at some position leaves a safe row. *)
Theorem any_removal_safe_iff (row : list Z) (Hne : row ≠ []) :
  ∃ b, any_removal_safe row = Ok b ∧
       (b = true ↔
        is_safe row = Ok true
        ∨ ∃ i : nat, (i < length row)%nat ∧ is_safe (delete i row) = Ok true).
Proof.
  destruct (any_removal_safe_ok row) as (b & Hb & Hiff).
  exists b. split; [done|]. rewrite Hiff. split; [by right|].
  intros [Hsafe|Hex]; [|done].
  by apply any_removal_safe_true, safe_any_removal_safe.
Qed.

Lemma any_removal_safe_iff_witness :
  [1; 3; 2; 4; 5] ≠ [] ∧
  ∃ b, any_removal_safe [1; 3; 2; 4; 5] = Ok b ∧
       (b = true ↔
        is_safe [1; 3; 2; 4; 5] = Ok true
        ∨ ∃ i : nat, (i < length [1; 3; 2; 4; 5])%nat
                     ∧ is_safe (delete i [1; 3; 2; 4; 5]) = Ok true).
Proof.
  assert ([1; 3; 2; 4; 5] ≠ []) as Hne by discriminate.
  split; [exact Hne|]. exact (any_removal_safe_iff [1; 3; 2; 4; 5] Hne).
Defined.

(** C3, as stated, fails on the empty row. *)
Lemma is_safe_any_removal_safe_counterexample :
  ¬ (is_safe [] = Ok true → any_removal_safe [] = Ok true).
Proof. intros Himp. by specialize (Himp eq_refl). Qed.

(** C3, amended: on every row that is not empty, [is_safe] returning
    [True] implies that the search returns [True]. *)
Theorem is_safe_any_removal_safe (row : list Z) :
  row ≠ [] → is_safe row = Ok true → any_removal_safe row = Ok true.
Proof. apply safe_any_removal_safe. Qed.

Lemma is_safe_any_removal_safe_witness :
  [1; 3; 6; 7; 9] ≠ [] ∧ is_safe [1; 3; 6; 7; 9] = Ok true
  ∧ any_removal_safe [1; 3; 6; 7; 9] = Ok true.
Proof.
  assert ([1; 3; 6; 7; 9] ≠ []) as Hne by discriminate.
  assert (is_safe [1; 3; 6; 7; 9] = Ok true) as Hsafe by (vm_compute; reflexivity).
  split_and!; [exact Hne|exact Hsafe|].
  exact (is_safe_any_removal_safe [1; 3; 6; 7; 9] Hne Hsafe).
Defined.

(** C4, as stated, fails: the third report [9 7 6 2 1] does not pass the
    search and the fifth report [8 6 4 4 1] does. *)
Lemma example_counts_counterexample :
  ¬ (safe_count_part1 example_data = Ok 2
     ∧ list_comp is_safe example_data
       = Ok [true; false; false; false; false; true]
     ∧ safe_count_part2 example_data = Ok 4
     ∧ list_comp any_removal_safe example_data
       = Ok [true; false; true; true; false; true]).
Proof. intros (_ & _ & _ & Hrows). vm_compute in Hrows. discriminate Hrows. Qed.

(** C4, amended: on the six reports the count of part 1 is 2 (reports 1
    and 6) and the count of part 2 is 4 (reports 1, 4, 5 and 6). *)
Theorem example_counts :
  safe_count_part1 example_data = Ok 2
  ∧ list_comp is_safe example_data
    = Ok [true; false; false; false; false; true]
  ∧ safe_count_part2 example_data = Ok 4
  ∧ list_comp any_removal_safe example_data
    = Ok [true; false; false; true; true; true].
Proof. split_and!; vm_compute; reflexivity. Qed.

(** C5: [is_safe([])] is [True], and [is_safe([x])] is [True] for every
    integer [x]. *)
Theorem is_safe_nil_singleton :
  is_safe [] = Ok true ∧ ∀ x : Z, is_safe [x] = Ok true.
Proof.
  split; [|intros x]; apply is_safe_true; left; intros d Hd.
  - by apply is_step_nil in Hd.
  - by apply is_step_singleton in Hd.
Qed.

(** C6, as stated, fails: both steps of [1, 4, 7] are 3, within bound. *)
Lemma step_bound_examples_counterexample :
  ¬ (is_safe [1; 4; 7] = Ok false ∧ is_safe [1; 5; 6] = Ok false).
Proof. intros [H147 _]. vm_compute in H147. discriminate H147. Qed.

(** C6, amended: [is_safe([1,4,7])] is [True] and [is_safe([1,5,6])] is
    [False]. *)
Theorem step_bound_examples :
  is_safe [1; 4; 7] = Ok true ∧ is_safe [1; 5; 6] = Ok false.
Proof. split; vm_compute; reflexivity. Qed.

(** C7: on every row, the empty and the one-element rows included, each
    index read by [is_safe] is in bounds, each slice bound of the search
    lies within the row, and both computations return a boolean: no
    [IndexError] is raised. *)
Theorem validator_total (row : list Z) :
  (∀ i, i ∈ range (len row - 1) →
        0 ≤ i ∧ i + 1 < len row
        ∧ ∃ x y, index row (i + 1) = Ok x ∧ index row i = Ok y)
  ∧ (∃ b, is_safe row = Ok b)
  ∧ (∀ i, i ∈ range (len row) →
          0 ≤ i ∧ i + 1 ≤ len row
          ∧ len (slice_to row i ++ slice_from row (i + 1)) = len row - 1)
  ∧ (∃ b, any_removal_safe row = Ok b).
Proof.
  split_and!.
  - intros i Hi. apply elem_of_range in Hi. unfold len in *.
    split_and!; [lia|lia|].
    destruct (index_in_bounds row (Z.to_nat (i + 1))) as [x Hx]; [lia|].
    destruct (index_in_bounds row (Z.to_nat i)) as [y Hy]; [lia|].
    rewrite Z2Nat.id in Hx, Hy by lia. by exists x, y.
  - destruct (is_safe_ok row) as (b & Hb & _). by exists b.
  - intros i Hi. apply elem_of_range in Hi. unfold len in *.
    split_and!; [lia|lia|].
    rewrite <- (Z2Nat.id i) by lia. rewrite slices_delete by lia.
    rewrite length_delete; [lia|]. apply lookup_lt_is_Some_2. lia.
  - destruct (any_removal_safe_ok row) as (b & Hb & _). by exists b.
Qed.

Lemma validator_total_witness :
  (0 ≤ 3 ∧ 3 + 1 < len [7; 6; 4; 2; 1]
   ∧ ∃ x y, index [7; 6; 4; 2; 1] (3 + 1) = Ok x
            ∧ index [7; 6; 4; 2; 1] 3 = Ok y)
  ∧ (0 ≤ 4 ∧ 4 + 1 ≤ len [7; 6; 4; 2; 1]
     ∧ len (slice_to [7; 6; 4; 2; 1] 4 ++ slice_from [7; 6; 4; 2; 1] (4 + 1))
       = len [7; 6; 4; 2; 1] - 1).
Proof.
  split.
  - apply (validator_total [7; 6; 4; 2; 1]). vm_compute.
    do 3 right. left.
  - apply (validator_total [7; 6; 4; 2; 1]). vm_compute.
    do 4 right. left.
Defined.

(** C8: on a row that is not empty and on which [is_safe] is [True],
    the candidate of the search at the last position is the row without
    its last element, its differences are differences of the row, and
    [is_safe] is [True] on it; so the search returns [True]. *)
Theorem safe_row_passes_by_last_removal (row : list Z) :
  row ≠ [] → is_safe row = Ok true →
  slice_to row (len row - 1) ++ slice_from row (len row - 1 + 1)
  = removelast row
  ∧ (∀ d, is_step (removelast row) d → is_step row d)
  ∧ is_safe (removelast row) = Ok true
  ∧ any_removal_safe row = Ok true.
Proof.
  intros Hne Hsafe. split_and!.
  - assert (0 < length row)%nat by (destruct row; [done|cbn; lia]).
    unfold len. replace (Z.of_nat (length row) - 1)
      with (Z.of_nat (length row - 1)) by lia.
    rewrite slices_delete by lia. by apply delete_last.
  - intros d. apply is_step_removelast.
  - by apply is_safe_true, safe_steps_removelast, is_safe_true.
  - by apply safe_any_removal_safe.
Qed.

Lemma safe_row_passes_by_last_removal_witness :
  [7; 6; 4; 2; 1] ≠ [] ∧ is_safe [7; 6; 4; 2; 1] = Ok true
  ∧ is_safe (removelast [7; 6; 4; 2; 1]) = Ok true
  ∧ any_removal_safe [7; 6; 4; 2; 1] = Ok true.
Proof.
  assert ([7; 6; 4; 2; 1] ≠ []) as Hne by discriminate.
  assert (is_safe [7; 6; 4; 2; 1] = Ok true) as Hsafe
    by (vm_compute; reflexivity).
  split_and!; [exact Hne|exact Hsafe| |];
    apply (safe_row_passes_by_last_removal [7; 6; 4; 2; 1] Hne Hsafe).
Defined.

(** C9: adding a constant [c] to every element of a row does not change
    the answer of [is_safe]. *)
Theorem is_safe_translation (c : Z) (row : list Z) :
  is_safe ((λ x, x + c) <$> row) = is_safe row.
Proof.
  apply is_safe_ext. unfold safe_steps, all_steps.
  by setoid_rewrite is_step_shift.
Qed.

(** C10: reversing a row does not change the answer of [is_safe]. *)
Theorem is_safe_reverse (row : list Z) :
  is_safe (reverse row) = is_safe row.
Proof.
  apply is_safe_ext. split; [|apply safe_steps_reverse].
  intros Hrev. apply safe_steps_reverse in Hrev.
  by rewrite reverse_involutive in Hrev.
Qed.

(** ** The two counts on arbitrary data *)

Lemma sum_from (acc : Z) (bs : list bool) :
  foldl (λ acc (b : bool), acc + (if b then 1 else 0)) acc bs
  = acc + Z.of_nat (length (filter (λ b, b = true) bs)).
Proof.
  revert acc. induction bs as [|b bs IH]; intros acc; [cbn; lia|].
  rewrite filter_cons. cbn [foldl]. rewrite IH.
  destruct b; case_decide; try done; cbn [length]; lia.
Qed.

Lemma sum_count (bs : list bool) :
  sum bs = Z.of_nat (length (filter (λ b, b = true) bs)).
Proof. unfold sum. by rewrite sum_from. Qed.

Lemma count_verdicts {A : Type} (f : A → result bool) (g : A → bool)
    (l : list A) :
  (∀ a, f a = Ok (g a)) →
  filter (λ b, b = true) (g <$> l) = g <$> filter (λ a, f a = Ok true) l.
Proof.
  intros Hfg. induction l as [|a l IH]; [done|].
  rewrite fmap_cons, !filter_cons, IH, Hfg.
  destruct (g a) eqn:Hg; repeat case_decide; try done.
  by rewrite fmap_cons, Hg.
Qed.

Lemma removal_verdict_ok (row : list Z) :
  any_removal_safe row = Ok (removal_verdict row).
Proof.
  unfold removal_verdict. by destruct (any_removal_safe_ok row) as (b & -> & _).
Qed.

Lemma safe_count_part1_eq (data : list (list Z)) :
  safe_count_part1 data = Ok (len (safe_rows data)).
Proof.
  unfold safe_count_part1, safe_rows, len.
  rewrite (list_comp_ok _ safe_verdict) by (intros; apply is_safe_verdict).
  cbn. rewrite sum_count, (count_verdicts is_safe) by apply is_safe_verdict.
  by rewrite length_fmap.
Qed.

Lemma safe_count_part2_eq (data : list (list Z)) :
  safe_count_part2 data = Ok (len (tolerated_rows data)).
Proof.
  unfold safe_count_part2, tolerated_rows, len.
  rewrite (list_comp_ok _ removal_verdict) by (intros; apply removal_verdict_ok).
  cbn. rewrite sum_count, (count_verdicts any_removal_safe)
    by apply removal_verdict_ok.
  by rewrite length_fmap.
Qed.

Lemma length_filter_mono {A : Type} (P Q : A → Prop)
    `{∀ x, Decision (P x)} `{∀ x, Decision (Q x)} (l : list A) :
  Forall (λ x, P x → Q x) l →
  (length (filter P l) ≤ length (filter Q l))%nat.
Proof.
  induction 1 as [|x l HPQ _ IH]; [done|].
  rewrite !filter_cons. repeat case_decide; cbn; try lia. tauto.
Qed.

(** X1: on every list of rows part 1 returns a number and raises nothing;
    the number is how many rows [is_safe] accepts, between 0 and the
    number of rows. *)
Theorem safe_count_part1_counts (data : list (list Z)) :
  ∃ n, safe_count_part1 data = Ok n
       ∧ n = len (filter (λ row, is_safe row = Ok true) data)
       ∧ 0 ≤ n ≤ len data.
Proof.
  exists (len (safe_rows data)). split_and!.
  - apply safe_count_part1_eq.
  - done.
  - unfold len. lia.
  - unfold len, safe_rows. pose proof (length_filter
      (λ row, is_safe row = Ok true) data). lia.
Qed.

(** X2: on every list of rows part 2 returns a number and raises nothing;
    it counts the rows that have a position whose deletion leaves a safe
    row, and lies between 0 and the number of rows. *)
Theorem safe_count_part2_counts (data : list (list Z)) :
  ∃ n, safe_count_part2 data = Ok n
       ∧ n = len (tolerated_rows data)
       ∧ (∀ row, row ∈ tolerated_rows data ↔
                 row ∈ data
                 ∧ ∃ i : nat, (i < length row)%nat
                              ∧ is_safe (delete i row) = Ok true)
       ∧ 0 ≤ n ≤ len data.
Proof.
  exists (len (tolerated_rows data)). split_and!.
  - apply safe_count_part2_eq.
  - done.
  - intros row. unfold tolerated_rows.
    rewrite list_elem_of_filter, any_removal_safe_true. tauto.
  - unfold len. lia.
  - unfold len, tolerated_rows. pose proof (length_filter
      (λ row, any_removal_safe row = Ok true) data). lia.
Qed.

(** X3: when no row of the data is empty, the count of part 1 is at most
    the count of part 2. *)
Theorem safe_count_part1_le_part2 (data : list (list Z)) :
  Forall (λ row, row ≠ []) data →
  ∃ n1 n2, safe_count_part1 data = Ok n1 ∧ safe_count_part2 data = Ok n2
           ∧ n1 ≤ n2.
Proof.
  intros Hne. exists (len (safe_rows data)), (len (tolerated_rows data)).
  split_and!; [apply safe_count_part1_eq|apply safe_count_part2_eq|].
  unfold len, safe_rows, tolerated_rows. apply inj_le, length_filter_mono.
  eapply Forall_impl; [exact Hne|]. intros row Hrow.
  by apply safe_any_removal_safe.
Qed.

Lemma safe_count_part1_le_part2_witness :
  Forall (λ row, row ≠ []) example_data
  ∧ ∃ n1 n2, safe_count_part1 example_data = Ok n1
             ∧ safe_count_part2 example_data = Ok n2 ∧ n1 ≤ n2.
Proof.
  assert (Forall (λ row : list Z, row ≠ []) example_data) as Hne
    by (repeat constructor; discriminate).
  split; [exact Hne|]. exact (safe_count_part1_le_part2 example_data Hne).
Defined.

(** X4: both counts ignore the order of the rows. *)
Theorem safe_counts_permutation (data data' : list (list Z)) :
  data ≡ₚ data' →
  safe_count_part1 data = safe_count_part1 data'
  ∧ safe_count_part2 data = safe_count_part2 data'.
Proof.
  intros Hperm. rewrite !safe_count_part1_eq, !safe_count_part2_eq.
  unfold len, safe_rows, tolerated_rows. by rewrite Hperm.
Qed.

Lemma safe_counts_permutation_witness :
  [[1; 2]; [4; 4]; [3]] ≡ₚ [[3]; [1; 2]; [4; 4]]
  ∧ safe_count_part1 [[1; 2]; [4; 4]; [3]]
    = safe_count_part1 [[3]; [1; 2]; [4; 4]]
  ∧ safe_count_part2 [[1; 2]; [4; 4]; [3]]
    = safe_count_part2 [[3]; [1; 2]; [4; 4]].
Proof.
  assert ([[1; 2]; [4; 4]; [3]] ≡ₚ [[3]; [1; 2]; [4; 4]]) as Hperm.
  { change ([[1; 2]; [4; 4]] ++ [[3]] ≡ₚ [[3]] ++ [[1; 2]; [4; 4]]).
    apply Permutation_app_comm. }
  split; [exact Hperm|]. exact (safe_counts_permutation _ _ Hperm).
Defined.

(** X5: the counts of a concatenation are the sums of the counts of its
    two parts. *)
Theorem safe_counts_app (data1 data2 : list (list Z)) :
  safe_count_part1 (data1 ++ data2)
  = (n1 ← safe_count_part1 data1; n2 ← safe_count_part1 data2; Ok (n1 + n2))
  ∧ safe_count_part2 (data1 ++ data2)
    = (n1 ← safe_count_part2 data1; n2 ← safe_count_part2 data2;
       Ok (n1 + n2)).
Proof.
  rewrite !safe_count_part1_eq, !safe_count_part2_eq. cbn.
  unfold len, safe_rows, tolerated_rows.
  rewrite !filter_app, !length_app. split; f_equal; lia.
Qed.

(** ** More on the one-removal search *)

Lemma is_safe_short (row : list Z) :
  (length row ≤ 1)%nat → is_safe row = Ok true.
Proof.
  intros Hlen. apply is_safe_true. left. intros d Hd.
  destruct row as [|x [|y row]]; [|by apply is_step_singleton in Hd|cbn in *; lia].
  by apply is_step_nil in Hd.
Qed.

Lemma is_safe_fmap_add (c : Z) (row : list Z) :
  is_safe ((λ x, x + c) <$> row) = is_safe row.
Proof.
  apply is_safe_ext. unfold safe_steps, all_steps.
  by setoid_rewrite is_step_shift.
Qed.

Lemma is_safe_reverse_eq (row : list Z) : is_safe (reverse row) = is_safe row.
Proof.
  apply is_safe_ext. split; [|apply safe_steps_reverse].
  intros Hrev. apply safe_steps_reverse in Hrev.
  by rewrite reverse_involutive in Hrev.
Qed.

(** The search succeeds exactly when the row splits around an element
    whose removal leaves a safe row. *)
Lemma any_removal_safe_split (row : list Z) :
  any_removal_safe row = Ok true ↔
  ∃ l1 x l2, row = l1 ++ x :: l2 ∧ is_safe (l1 ++ l2) = Ok true.
Proof.
  rewrite any_removal_safe_true. split.
  - intros (i & Hi & Hsafe).
    destruct (lookup_lt_is_Some_2 row i Hi) as [x Hx].
    exists (take i row), x, (drop (S i) row). split.
    + symmetry. by apply take_drop_middle.
    + by rewrite <- delete_take_drop.
  - intros (l1 & x & l2 & -> & Hsafe). exists (length l1). split.
    + rewrite length_app. cbn. lia.
    + by rewrite delete_middle.
Qed.

Lemma any_removal_safe_ext (row row' : list Z) :
  (any_removal_safe row = Ok true ↔ any_removal_safe row' = Ok true) →
  any_removal_safe row = any_removal_safe row'.
Proof.
  rewrite (removal_verdict_ok row), (removal_verdict_ok row').
  intros Hiff. f_equal.
  destruct (removal_verdict row), (removal_verdict row'); try done.
  - symmetry. assert (Ok false = Ok true) as [=]; by apply Hiff.
  - assert (Ok false = Ok true) as [=]; by apply Hiff.
Qed.

Lemma any_removal_safe_reverse_1 (row : list Z) :
  any_removal_safe row = Ok true → any_removal_safe (reverse row) = Ok true.
Proof.
  rewrite !any_removal_safe_split. intros (l1 & x & l2 & -> & Hsafe).
  exists (reverse l2), x, (reverse l1). split.
  - by rewrite reverse_app, reverse_cons, <- app_assoc.
  - by rewrite <- reverse_app, is_safe_reverse_eq.
Qed.

(** X6: a row of one or two elements always passes the one-removal
    search, whatever its values. *)
Theorem any_removal_safe_short (row : list Z) :
  (0 < length row ≤ 2)%nat → any_removal_safe row = Ok true.
Proof.
  intros Hlen. apply any_removal_safe_true. exists 0%nat. split; [lia|].
  apply is_safe_short. destruct row as [|x row]; cbn in *; lia.
Qed.

Lemma any_removal_safe_short_witness :
  (0 < length [4; 4] ≤ 2)%nat ∧ any_removal_safe [4; 4] = Ok true
  ∧ is_safe [4; 4] = Ok false.
Proof.
  assert (0 < length [4; 4] ≤ 2)%nat as Hlen by (cbn; lia).
  split; [exact Hlen|]. split; [exact (any_removal_safe_short [4; 4] Hlen)|].
  vm_compute. reflexivity.
Defined.

(** X7: adding a constant to every element of a row does not change the
    answer of the one-removal search. *)
Theorem any_removal_safe_translation (c : Z) (row : list Z) :
  any_removal_safe ((λ x, x + c) <$> row) = any_removal_safe row.
Proof.
  apply any_removal_safe_ext. rewrite !any_removal_safe_true.
  rewrite length_fmap.
  split; intros (i & Hi & Hsafe); exists i; (split; [done|]).
  - by rewrite <- list_fmap_delete, is_safe_fmap_add in Hsafe.
  - by rewrite <- list_fmap_delete, is_safe_fmap_add.
Qed.

(** X8: reversing a row does not change the answer of the one-removal
    search. *)
Theorem any_removal_safe_reverse (row : list Z) :
  any_removal_safe (reverse row) = any_removal_safe row.
Proof.
  apply any_removal_safe_ext. split; [|apply any_removal_safe_reverse_1].
  intros Hrev. apply any_removal_safe_reverse_1 in Hrev.
  by rewrite reverse_involutive in Hrev.
Qed.

(** ** The shape of a safe row *)

Lemma is_step_cons (x y : Z) (l : list Z) (d : Z) :
  is_step (x :: y :: l) d ↔ d = y - x ∨ is_step (y :: l) d.
Proof.
  split.
  - intros ([|i] & a & b & Ha & Hb & ->).
    + left. cbn in Ha, Hb. congruence.
    + right. by exists i, a, b.
  - intros [->|(i & a & b & Ha & Hb & ->)].
    + by exists 0%nat, x, y.
    + by exists (S i), a, b.
Qed.

Lemma all_steps_cons (P : Z → Prop) (x y : Z) (l : list Z) :
  all_steps P (x :: y :: l) ↔ P (y - x) ∧ all_steps P (y :: l).
Proof.
  unfold all_steps. setoid_rewrite is_step_cons. split.
  - intros Hall. split; [|intros d Hd]; apply Hall; [by left|by right].
  - intros [Hhd Htl] d [->|Hd]; [done|by apply Htl].
Qed.

(** All differences satisfy [P] exactly when neighbours are related by
    [P] all along the row. *)
Lemma all_steps_Sorted (P : Z → Prop) (row : list Z) :
  all_steps P row ↔ Sorted (λ a b, P (b - a)) row.
Proof.
  induction row as [|x [|y l] IH].
  - split; [constructor|]. intros _ d Hd. by apply is_step_nil in Hd.
  - split; [by repeat constructor|]. intros _ d Hd.
    by apply is_step_singleton in Hd.
  - rewrite all_steps_cons, IH. split.
    + intros [Hhd Htl]. constructor; [done|by constructor].
    + intros Hsorted. apply Sorted_inv in Hsorted as [Htl Hhd].
      by apply HdRel_inv in Hhd.
Qed.

Lemma is_step_app_r (l1 l2 : list Z) (d : Z) :
  is_step l2 d → is_step (l1 ++ l2) d.
Proof.
  rewrite !is_step_split. intros (a & x & y & b & -> & ->).
  exists (l1 ++ a), x, y, b. by rewrite <- app_assoc.
Qed.

Lemma StronglySorted_NoDup {A : Type} (R : relation A) `{!Irreflexive R}
    (l : list A) :
  StronglySorted R l → NoDup l.
Proof.
  induction 1 as [|x l _ IH Hall]; constructor; [|done].
  intros Hin. rewrite Forall_forall in Hall.
  by apply (irreflexivity R x), Hall.
Qed.

Lemma increasing_spread (x y : Z) (l : list Z) :
  Sorted (λ a b, increasing_step (b - a)) (x :: l) →
  last (x :: l) = Some y →
  len l ≤ y - x ≤ 3 * len l.
Proof.
  unfold len. revert x. induction l as [|z l IH]; intros x Hsorted Hlast.
  - cbn in *. injection Hlast as ->. lia.
  - apply Sorted_inv in Hsorted as [Htl Hhd]. apply HdRel_inv in Hhd.
    rewrite last_cons_cons in Hlast. specialize (IH z Htl Hlast).
    unfold increasing_step in Hhd. cbn [length]. lia.
Qed.

Lemma decreasing_spread (x y : Z) (l : list Z) :
  Sorted (λ a b, decreasing_step (b - a)) (x :: l) →
  last (x :: l) = Some y →
  len l ≤ x - y ≤ 3 * len l.
Proof.
  unfold len. revert x. induction l as [|z l IH]; intros x Hsorted Hlast.
  - cbn in *. injection Hlast as ->. lia.
  - apply Sorted_inv in Hsorted as [Htl Hhd]. apply HdRel_inv in Hhd.
    rewrite last_cons_cons in Hlast. specialize (IH z Htl Hlast).
    unfold decreasing_step in Hhd. cbn [length]. lia.
Qed.

Lemma index_last {A : Type} (l : list A) (y : A) :
  last l = Some y → index l (-1) = Ok y.
Proof.
  intros Hlast. rewrite last_lookup in Hlast.
  pose proof (lookup_lt_Some _ _ _ Hlast) as Hlt.
  rewrite <- (index_lookup _ _ _ Hlast). unfold index, len.
  replace (Z.of_nat (Nat.pred (length l))) with (Z.of_nat (length l) - 1) by lia.
  assert ((Z.of_nat (length l) - 1 <? 0) = false) as Hneg
    by (apply Z.ltb_ge; lia).
  cbn. replace (-1 + Z.of_nat (length l)) with (Z.of_nat (length l) - 1) by lia.
  by rewrite !Hneg.
Qed.

Lemma Sorted_weaken {A : Type} (R1 R2 : relation A) (l : list A) :
  (∀ a b, R1 a b → R2 a b) → Sorted R1 l → Sorted R2 l.
Proof.
  intros HR. induction 1 as [|x l _ IH Hhd]; constructor; [done|].
  destruct Hhd; constructor. by apply HR.
Qed.

(** X9: a row that [is_safe] accepts is strictly increasing or strictly
    decreasing; in particular no value occurs twice in it. *)
Theorem is_safe_strictly_monotone (row : list Z) :
  is_safe row = Ok true →
  (StronglySorted Z.lt row ∨ StronglySorted (flip Z.lt) row) ∧ NoDup row.
Proof.
  intros Hsafe. apply is_safe_true in Hsafe.
  assert (StronglySorted Z.lt row ∨ StronglySorted (flip Z.lt) row) as Hmono.
  { destruct Hsafe as [Hall|Hall]; [left|right];
      apply all_steps_Sorted in Hall; apply (Sorted_StronglySorted _);
      (eapply Sorted_weaken; [|exact Hall]); intros a b Hab; red in Hab;
      unfold flip; lia. }
  split; [done|].
  destruct Hmono as [Hup|Hdown].
  - by apply (StronglySorted_NoDup Z.lt).
  - by apply (StronglySorted_NoDup (flip Z.lt)).
Qed.

Lemma is_safe_strictly_monotone_witness :
  is_safe [9; 7; 4] = Ok true
  ∧ (StronglySorted Z.lt [9; 7; 4] ∨ StronglySorted (flip Z.lt) [9; 7; 4])
  ∧ NoDup [9; 7; 4].
Proof.
  assert (is_safe [9; 7; 4] = Ok true) as Hsafe by (vm_compute; reflexivity).
  split; [exact Hsafe|]. exact (is_safe_strictly_monotone [9; 7; 4] Hsafe).
Defined.

(** X10: every contiguous segment of a row that [is_safe] accepts is
    accepted too. *)
Theorem is_safe_segment (l1 seg l2 : list Z) :
  is_safe (l1 ++ seg ++ l2) = Ok true → is_safe seg = Ok true.
Proof.
  rewrite !is_safe_true.
  intros [Hall|Hall]; [left|right]; intros d Hd;
    by apply Hall, is_step_app_r, is_step_app_l.
Qed.

Lemma is_safe_segment_witness :
  is_safe ([1; 2] ++ [4; 5; 8] ++ [9]) = Ok true
  ∧ is_safe [4; 5; 8] = Ok true.
Proof.
  assert (is_safe ([1; 2] ++ [4; 5; 8] ++ [9]) = Ok true) as Hsafe
    by (vm_compute; reflexivity).
  split; [exact Hsafe|]. exact (is_safe_segment [1; 2] [4; 5; 8] [9] Hsafe).
Defined.

(** X11: on a row with at least one element that [is_safe] accepts,
    [row[0]] and [row[-1]] exist and their distance is at least
    [len(row) - 1] and at most [3 * (len(row) - 1)]. *)
Theorem is_safe_spread (row : list Z) :
  row ≠ [] → is_safe row = Ok true →
  ∃ x y, index row 0 = Ok x ∧ index row (-1) = Ok y
         ∧ len row - 1 ≤ Z.abs (y - x) ≤ 3 * (len row - 1).
Proof.
  intros Hne Hsafe. destruct row as [|x l]; [done|].
  destruct (last (x :: l)) as [y|] eqn:Hlast;
    [|by apply last_None in Hlast].
  exists x, y. split; [by apply (index_lookup (x :: l) 0)|].
  split; [by apply index_last|].
  assert (len (x :: l) - 1 = len l) as -> by (unfold len; cbn [length]; lia).
  apply is_safe_true in Hsafe as [Hall|Hall]; apply all_steps_Sorted in Hall.
  - pose proof (increasing_spread x y l Hall Hlast). lia.
  - pose proof (decreasing_spread x y l Hall Hlast). lia.
Qed.

Lemma is_safe_spread_witness :
  [7; 6; 4; 2; 1] ≠ [] ∧ is_safe [7; 6; 4; 2; 1] = Ok true
  ∧ ∃ x y, index [7; 6; 4; 2; 1] 0 = Ok x ∧ index [7; 6; 4; 2; 1] (-1) = Ok y
           ∧ len [7; 6; 4; 2; 1] - 1 ≤ Z.abs (y - x)
                                      ≤ 3 * (len [7; 6; 4; 2; 1] - 1).
Proof.
  assert ([7; 6; 4; 2; 1] ≠ []) as Hne by discriminate.
  assert (is_safe [7; 6; 4; 2; 1] = Ok true) as Hsafe
    by (vm_compute; reflexivity).
  split; [exact Hne|]. split; [exact Hsafe|].
  exact (is_safe_spread [7; 6; 4; 2; 1] Hne Hsafe).
Defined.

(** ** Day 1: columns, sorting and sums *)

Import Day01.

Lemma interleave_cons (r : Z * Z) (rows : list (Z * Z)) :
  interleave (r :: rows) = r.1 :: r.2 :: interleave rows.
Proof. done. Qed.

Lemma stride_interleave (rows : list (Z * Z)) :
  stride 0 1 (interleave rows) = rows.*1
  ∧ stride 1 1 (interleave rows) = rows.*2.
Proof.
  induction rows as [|r rows [IH1 IH2]]; [done|].
  rewrite interleave_cons, !fmap_cons. cbn [stride]. by rewrite IH1, IH2.
Qed.

Lemma slice_step_even {A : Type} (l : list A) :
  slice_step l 0 2 = stride 0 1 l.
Proof.
  unfold slice_step, clamp, len. cbn.
  by replace (Z.to_nat (Z.min 0 (Z.of_nat (length l)))) with 0%nat by lia.
Qed.

Lemma slice_step_odd {A : Type} (l : list A) :
  slice_step l 1 2 = stride 1 1 l.
Proof.
  destruct l as [|x l]; [done|].
  unfold slice_step, clamp, len. cbn [length Z.ltb Z.compare].
  by replace (Z.to_nat (Z.min 1 (Z.of_nat (S (length l))))) with 1%nat by lia.
Qed.

Lemma stride_lengths {A : Type} (l : list A) :
  (length (stride 0 1 l) + length (stride 1 1 l) = length l
   ∧ length (stride 1 1 l) ≤ length (stride 0 1 l)
   ∧ length (stride 0 1 l) ≤ length (stride 1 1 l) + 1)%nat.
Proof.
  induction l as [|x l IH]; [cbn; lia|]. cbn [stride length]. lia.
Qed.

Lemma sorted_Permutation (l : list Z) : sorted l ≡ₚ l.
Proof. apply merge_sort_Permutation. Qed.

Lemma sorted_Sorted (l : list Z) : Sorted Z.le (sorted l).
Proof. apply (Sorted_merge_sort Z.le). Qed.

Lemma sorted_length (l : list Z) : length (sorted l) = length l.
Proof. apply Permutation_length, sorted_Permutation. Qed.

(** Sorting forgets the order of its argument. *)
Lemma sorted_proper (l l' : list Z) : l ≡ₚ l' → sorted l = sorted l'.
Proof.
  intros Hperm. apply (Sorted_unique Z.le); [apply sorted_Sorted..|].
  by rewrite !sorted_Permutation.
Qed.


Lemma sum_int_from (acc : Z) (xs : list Z) :
  foldl Z.add acc xs = acc + sum_int xs.
Proof.
  unfold sum_int. revert acc. induction xs as [|x xs IH]; intros acc.
  - cbn. lia.
  - cbn [foldl]. rewrite (IH (acc + x)), (IH (0 + x)). lia.
Qed.

Lemma sum_int_cons (x : Z) (xs : list Z) : sum_int (x :: xs) = x + sum_int xs.
Proof. unfold sum_int at 1. cbn [foldl]. by rewrite sum_int_from. Qed.

Lemma sum_int_nil : sum_int [] = 0.
Proof. done. Qed.

Lemma sum_int_nonneg (xs : list Z) : Forall (λ x, 0 ≤ x) xs → 0 ≤ sum_int xs.
Proof.
  induction 1 as [|x xs Hx _ IH]; [done|]. rewrite sum_int_cons. lia.
Qed.

Lemma sum_int_Permutation (xs ys : list Z) :
  xs ≡ₚ ys → sum_int xs = sum_int ys.
Proof.
  induction 1 as [|x xs ys _ IH|x y xs|xs ys zs _ IH1 _ IH2];
    rewrite ?sum_int_cons; lia.
Qed.

Lemma count_cons (b a : Z) (l : list Z) :
  count (b :: l) a = (if decide (b = a) then 1 else 0) + count l a.
Proof.
  unfold count, len. rewrite filter_cons. case_decide; cbn [length]; lia.
Qed.

Lemma count_nonneg (l : list Z) (a : Z) : 0 ≤ count l a.
Proof. unfold count, len. lia. Qed.

Lemma count_Permutation (l l' : list Z) (a : Z) :
  l ≡ₚ l' → count l a = count l' a.
Proof. intros Hperm. unfold count, len. by rewrite Hperm. Qed.

Lemma total_distance_eq (data : list Z) :
  total_distance data
  = pair_distance (sorted (slice_step data 0 2)) (sorted (slice_step data 1 2)).
Proof. done. Qed.

Lemma similarity_score_eq (data : list Z) :
  similarity_score data
  = weighted_count (sorted (slice_step data 0 2))
                   (sorted (slice_step data 1 2)).
Proof. done. Qed.

Lemma slice_step_interleave (rows : list (Z * Z)) :
  slice_step (interleave rows) 0 2 = rows.*1
  ∧ slice_step (interleave rows) 1 2 = rows.*2.
Proof. rewrite slice_step_even, slice_step_odd. apply stride_interleave. Qed.

Lemma total_distance_interleave (rows : list (Z * Z)) :
  total_distance (interleave rows)
  = pair_distance (sorted rows.*1) (sorted rows.*2).
Proof.
  rewrite total_distance_eq.
  by destruct (slice_step_interleave rows) as [-> ->].
Qed.

Lemma similarity_score_interleave (rows : list (Z * Z)) :
  similarity_score (interleave rows)
  = weighted_count (sorted rows.*1) (sorted rows.*2).
Proof.
  rewrite similarity_score_eq.
  by destruct (slice_step_interleave rows) as [-> ->].
Qed.

Lemma pair_distance_cons (a b : Z) (L R : list Z) :
  pair_distance (a :: L) (b :: R) = Z.abs (a - b) + pair_distance L R.
Proof. unfold pair_distance. cbn [zip_with]. apply sum_int_cons. Qed.


Lemma pair_distance_sym (L R : list Z) : pair_distance L R = pair_distance R L.
Proof.
  revert R. induction L as [|a L IH]; intros [|b R]; try done.
  rewrite !pair_distance_cons, (IH R). lia.
Qed.


Lemma pair_distance_shift (c : Z) (L R : list Z) :
  pair_distance ((λ x, x + c) <$> L) ((λ x, x + c) <$> R) = pair_distance L R.
Proof.
  revert R. induction L as [|a L IH]; intros [|b R]; try done.
  rewrite !fmap_cons, !pair_distance_cons, (IH R). f_equal. lia.
Qed.

Lemma pair_distance_rows (rows : list (Z * Z)) :
  pair_distance rows.*1 rows.*2 = row_distance rows.
Proof.
  unfold row_distance. induction rows as [|r rows IH]; [done|].
  rewrite !fmap_cons, pair_distance_cons, sum_int_cons. by rewrite IH.
Qed.

Lemma row_distance_Permutation (rows rows' : list (Z * Z)) :
  rows ≡ₚ rows' → row_distance rows = row_distance rows'.
Proof.
  intros Hperm. unfold row_distance. apply sum_int_Permutation.
  by rewrite Hperm.
Qed.

Lemma row_distance_cons (r : Z * Z) (rows : list (Z * Z)) :
  row_distance (r :: rows) = Z.abs (r.1 - r.2) + row_distance rows.
Proof. unfold row_distance. by rewrite fmap_cons, sum_int_cons. Qed.

Lemma sorted_shift (c : Z) (l : list Z) :
  sorted ((λ x, x + c) <$> l) = (λ x, x + c) <$> sorted l.
Proof.
  apply (Sorted_unique Z.le); [apply sorted_Sorted| |].
  - apply (Sorted_fmap _ Z.le Z.le); [|apply sorted_Sorted]. intros x y. lia.
  - by rewrite !sorted_Permutation.
Qed.

Lemma weighted_count_cons (a : Z) (L R : list Z) :
  weighted_count (a :: L) R = a * count R a + weighted_count L R.
Proof. unfold weighted_count. by rewrite fmap_cons, sum_int_cons. Qed.

Lemma count_nil (a : Z) : count [] a = 0.
Proof. done. Qed.

Lemma weighted_count_cons_r (b : Z) (L R : list Z) :
  weighted_count L (b :: R) = b * count L b + weighted_count L R.
Proof.
  induction L as [|a L IH]; [by rewrite count_nil, Z.mul_0_r|].
  rewrite !weighted_count_cons, IH, !count_cons.
  repeat case_decide; subst; try done; lia.
Qed.

Lemma weighted_count_nil_r (L : list Z) : weighted_count L [] = 0.
Proof.
  induction L as [|a L IH]; [done|].
  by rewrite weighted_count_cons, IH, count_nil, Z.mul_0_r.
Qed.

Lemma weighted_count_sym (L R : list Z) :
  weighted_count L R = weighted_count R L.
Proof.
  induction L as [|a L IH]; [by rewrite weighted_count_nil_r|].
  by rewrite weighted_count_cons, weighted_count_cons_r, IH.
Qed.

Lemma weighted_count_Permutation (L L' R R' : list Z) :
  L ≡ₚ L' → R ≡ₚ R' → weighted_count L R = weighted_count L' R'.
Proof.
  intros HL HR. unfold weighted_count.
  rewrite (list_fmap_ext _ (λ a, a * count R' a) L)
    by (intros _ a _; by rewrite (count_Permutation R R')).
  apply sum_int_Permutation. by rewrite HL.
Qed.

(** ** Day 1: the sorted pairing is the cheapest one *)

(** A list that is not empty can be rearranged to start with an element
    that minimises [f]. *)
Lemma min_split {A : Type} (f : A → Z) (l : list A) :
  l ≠ [] → ∃ p l', l ≡ₚ p :: l' ∧ Forall (λ q, f p ≤ f q) l'.
Proof.
  induction l as [|x l IH]; [done|]. intros _.
  destruct l as [|y l]; [by exists x, []|].
  destruct IH as (p & l' & Hperm & Hmin); [done|].
  destruct (decide (f x ≤ f p)) as [Hle|Hgt].
  - exists x, (y :: l). split; [done|]. rewrite Hperm. constructor; [done|].
    eapply Forall_impl; [exact Hmin|]. cbn. intros q Hq. lia.
  - exists p, (x :: l'). split.
    + rewrite Hperm. apply perm_swap.
    + constructor; [lia|done].
Qed.

Lemma sorted_min_cons (a : Z) (l : list Z) :
  Forall (λ x, a ≤ x) l → sorted (a :: l) = a :: sorted l.
Proof.
  intros Hmin. apply (Sorted_unique Z.le); [apply sorted_Sorted| |].
  - constructor; [apply sorted_Sorted|].
    rewrite <- (sorted_Permutation l) in Hmin.
    destruct Hmin; by constructor.
  - by rewrite !sorted_Permutation.
Qed.

Lemma sorted_fst_min_cons (p : Z * Z) (rows rest : list (Z * Z)) :
  rows ≡ₚ p :: rest → Forall (λ q, p.1 ≤ q.1) rest →
  sorted rows.*1 = p.1 :: sorted rest.*1.
Proof.
  intros Hperm Hmin. rewrite (sorted_proper rows.*1 (p.1 :: rest.*1))
    by (by rewrite Hperm).
  apply sorted_min_cons. by apply Forall_fmap.
Qed.

Lemma sorted_snd_min_cons (p : Z * Z) (rows rest : list (Z * Z)) :
  rows ≡ₚ p :: rest → Forall (λ q, p.2 ≤ q.2) rest →
  sorted rows.*2 = p.2 :: sorted rest.*2.
Proof.
  intros Hperm Hmin. rewrite (sorted_proper rows.*2 (p.2 :: rest.*2))
    by (by rewrite Hperm).
  apply sorted_min_cons. by apply Forall_fmap.
Qed.

(** Pairing the sorted columns costs no more than the rows as they are. *)
Lemma sorted_pairing_le (n : nat) (rows : list (Z * Z)) :
  length rows = n →
  pair_distance (sorted rows.*1) (sorted rows.*2) ≤ row_distance rows.
Proof.
  revert rows. induction n as [|n IH]; intros rows Hlen.
  { by destruct rows. }
  assert (rows ≠ []) as Hne by (by destruct rows).
  destruct (min_split fst rows Hne) as (p & ps1 & Hp & Hpmin).
  destruct (min_split snd rows Hne) as (q & ps2 & Hq & Hqmin).
  assert (q ∈ p :: ps1) as [->|Hin]%elem_of_cons
    by (rewrite <- Hp, Hq; left).
  - (* the least left number and the least right number share a row *)
    assert (ps2 ≡ₚ ps1) as Hrest
      by (apply (Permutation_cons_inv (a := p)); by rewrite <- Hp, <- Hq).
    rewrite Hrest in Hqmin.
    rewrite (sorted_fst_min_cons p rows ps1), (sorted_snd_min_cons p rows ps1)
      by done.
    rewrite pair_distance_cons, (row_distance_Permutation _ _ Hp),
      row_distance_cons.
    assert (length ps1 = n) as Hn
      by (apply Permutation_length in Hp; cbn in Hp; lia).
    specialize (IH ps1 Hn). lia.
  - (* they sit in two rows: re-pair these two rows *)
    apply elem_of_Permutation in Hin as (ps3 & Hps1).
    assert (rows ≡ₚ p :: q :: ps3) as Hrows by (by rewrite Hp, Hps1).
    assert (ps2 ≡ₚ p :: ps3) as Hps2.
    { apply (Permutation_cons_inv (a := q)).
      rewrite <- Hq, Hrows. apply perm_swap. }
    rewrite Hps1 in Hpmin. rewrite Hps2 in Hqmin.
    apply Forall_cons in Hpmin as [Hpq Hpmin].
    apply Forall_cons in Hqmin as [Hqp Hqmin]. cbn in Hpq, Hqp.
    set (qs := (q.1, p.2) :: ps3).
    assert (length qs = n) as Hn.
    { apply Permutation_length in Hrows. cbn in *. lia. }
    rewrite (sorted_fst_min_cons p rows (q :: ps3))
      by (done || by constructor).
    rewrite (sorted_snd_min_cons q rows (p :: ps3));
      [|by rewrite Hrows; apply perm_swap|by constructor].
    rewrite pair_distance_cons, (row_distance_Permutation _ _ Hrows),
      !row_distance_cons.
    specialize (IH qs Hn). unfold qs in IH.
    rewrite row_distance_cons in IH. cbn in IH. cbn. lia.
Qed.

Lemma stride_Permutation {A : Type} (l : list A) :
  stride 0 1 l ++ stride 1 1 l ≡ₚ l.
Proof.
  induction l as [|x l IH]; [done|]. cbn [stride app].
  constructor. by rewrite Permutation_app_comm.
Qed.

Lemma stride_fmap {A B : Type} (f : A → B) (skip gap : nat) (l : list A) :
  stride skip gap (f <$> l) = f <$> stride skip gap l.
Proof.
  revert skip. induction l as [|x l IH]; intros skip; [done|].
  rewrite fmap_cons. cbn [stride]. destruct skip; [|done].
  by rewrite fmap_cons, IH.
Qed.

Lemma slice_step_fmap {A B : Type} (f : A → B) (l : list A) (lo step : Z) :
  slice_step (f <$> l) lo step = f <$> slice_step l lo step.
Proof.
  unfold slice_step, clamp, len. rewrite length_fmap. apply stride_fmap.
Qed.

Lemma count_absent (l : list Z) (a : Z) : a ∉ l → count l a = 0.
Proof.
  induction l as [|b l IH]; [done|]. intros Hnot.
  apply not_elem_of_cons in Hnot as [Hne Hnot].
  rewrite count_cons, IH by done. by case_decide.
Qed.

Lemma weighted_count_disjoint (L R : list Z) :
  (∀ a, a ∈ L → a ∉ R) → weighted_count L R = 0.
Proof.
  induction L as [|a L IH]; intros Hdisj; [done|].
  rewrite weighted_count_cons, IH by (intros b Hb; apply Hdisj; by right).
  rewrite count_absent by (apply Hdisj; left). lia.
Qed.

(** X12: when the data lists the rows of a two-column file one after
    the other, [data[0::2]] is the left column and [data[1::2]] the right
    one, so the script compares the sorted left with the sorted right
    column. *)
Theorem columns_interleave (rows : list (Z * Z)) :
  slice_step (interleave rows) 0 2 = rows.*1
  ∧ slice_step (interleave rows) 1 2 = rows.*2
  ∧ columns (interleave rows) = (sorted rows.*1, sorted rows.*2).
Proof.
  destruct (slice_step_interleave rows) as [H1 H2].
  split_and!; [done|done|]. unfold columns. by rewrite H1, H2.
Qed.

(** X13: for every data list, the two columns are in ascending order,
    together they hold exactly the numbers of the data, and the first has
    as many elements as the second or one more. *)
Theorem columns_shape (data : list Z) :
  Sorted Z.le (columns data).1 ∧ Sorted Z.le (columns data).2
  ∧ (columns data).1 ++ (columns data).2 ≡ₚ data
  ∧ len (columns data).1 + len (columns data).2 = len data
  ∧ len (columns data).2 ≤ len (columns data).1 ≤ len (columns data).2 + 1.
Proof.
  unfold columns, len. cbn [fst snd].
  rewrite slice_step_even, slice_step_odd, !sorted_length.
  pose proof (stride_lengths data).
  split_and!; [apply sorted_Sorted..| |lia|lia|lia].
  rewrite !sorted_Permutation. apply stride_Permutation.
Qed.


(** X15: both printed numbers depend only on which numbers each column
    holds, not on the order of the lines nor on which left number shares
    a line with which right number. *)
Theorem output_permutation (rows rows' : list (Z * Z)) :
  rows.*1 ≡ₚ rows'.*1 → rows.*2 ≡ₚ rows'.*2 →
  output (interleave rows) = output (interleave rows').
Proof.
  intros H1 H2. unfold output.
  rewrite !total_distance_interleave, !similarity_score_interleave.
  by rewrite (sorted_proper _ _ H1), (sorted_proper _ _ H2).
Qed.

Lemma output_permutation_witness :
  [(3, 4); (1, 9); (2, 5)].*1 ≡ₚ [(1, 5); (2, 4); (3, 9)].*1
  ∧ [(3, 4); (1, 9); (2, 5)].*2 ≡ₚ [(1, 5); (2, 4); (3, 9)].*2
  ∧ output (interleave [(3, 4); (1, 9); (2, 5)])
    = output (interleave [(1, 5); (2, 4); (3, 9)]).
Proof.
  assert ([(3, 4); (1, 9); (2, 5)].*1 ≡ₚ [(1, 5); (2, 4); (3, 9)].*1) as H1.
  { cbn. change ([3] ++ [1; 2] ≡ₚ [1; 2] ++ [3]). apply Permutation_app_comm. }
  assert ([(3, 4); (1, 9); (2, 5)].*2 ≡ₚ [(1, 5); (2, 4); (3, 9)].*2) as H2.
  { cbn. change ([4; 9] ++ [5] ≡ₚ [5] ++ [4; 9]). apply Permutation_app_comm. }
  split; [exact H1|]. split; [exact H2|].
  exact (output_permutation _ _ H1 H2).
Defined.

(** X16: sorting does not matter for the similarity score: it is the sum
    over the left numbers, in file order, of the number times its count
    in the unsorted right column. *)
Theorem similarity_score_unsorted (rows : list (Z * Z)) :
  similarity_score (interleave rows)
  = sum_int ((λ a, a * count rows.*2 a) <$> rows.*1).
Proof.
  rewrite similarity_score_interleave.
  apply weighted_count_Permutation; apply sorted_Permutation.
Qed.

(** X17: swapping the two columns of the file changes neither of the
    printed numbers. *)
Theorem output_swap (rows : list (Z * Z)) :
  output (interleave (prod_swap <$> rows)) = output (interleave rows).
Proof.
  unfold output.
  rewrite !total_distance_interleave, !similarity_score_interleave.
  assert ((prod_swap <$> rows).*1 = rows.*2) as ->
    by (rewrite <- list_fmap_compose; by apply list_fmap_ext; intros ? []).
  assert ((prod_swap <$> rows).*2 = rows.*1) as ->
    by (rewrite <- list_fmap_compose; by apply list_fmap_ext; intros ? []).
  by rewrite pair_distance_sym, weighted_count_sym.
Qed.

(** X18: adding a constant to every number of the data does not change
    the total distance. *)
Theorem total_distance_translation (c : Z) (data : list Z) :
  total_distance ((λ x, x + c) <$> data) = total_distance data.
Proof.
  rewrite !total_distance_eq, !slice_step_fmap, !sorted_shift.
  apply pair_distance_shift.
Qed.

(** X19: the total distance is the least sum of distances over all ways
    of pairing the left numbers with the right numbers: no pairing costs
    less, and one pairing costs exactly that. *)
Theorem total_distance_least (rows : list (Z * Z)) :
  (∀ rows', rows'.*1 ≡ₚ rows.*1 → rows'.*2 ≡ₚ rows.*2 →
            total_distance (interleave rows)
            ≤ sum_int ((λ r, Z.abs (r.1 - r.2)) <$> rows'))
  ∧ ∃ rows', rows'.*1 ≡ₚ rows.*1 ∧ rows'.*2 ≡ₚ rows.*2
             ∧ sum_int ((λ r, Z.abs (r.1 - r.2)) <$> rows')
               = total_distance (interleave rows).
Proof.
  rewrite total_distance_interleave. split.
  - intros rows' H1 H2.
    rewrite <- (sorted_proper _ _ H1), <- (sorted_proper _ _ H2).
    by apply (sorted_pairing_le (length rows')).
  - assert (length (sorted rows.*1) = length (sorted rows.*2)) as Hlen
      by (by rewrite !sorted_length, !length_fmap).
    exists (zip (sorted rows.*1) (sorted rows.*2)).
    assert ((zip (sorted rows.*1) (sorted rows.*2)).*1 = sorted rows.*1) as E1
      by (apply fst_zip; lia).
    assert ((zip (sorted rows.*1) (sorted rows.*2)).*2 = sorted rows.*2) as E2
      by (apply snd_zip; lia).
    split_and!.
    + rewrite E1. apply sorted_Permutation.
    + rewrite E2. apply sorted_Permutation.
    + change (row_distance (zip (sorted rows.*1) (sorted rows.*2))
              = pair_distance (sorted rows.*1) (sorted rows.*2)).
      by rewrite <- pair_distance_rows, E1, E2.
Qed.

Lemma total_distance_least_witness :
  [(3, 4); (1, 9)].*1 ≡ₚ [(1, 4); (3, 9)].*1
  ∧ [(3, 4); (1, 9)].*2 ≡ₚ [(1, 4); (3, 9)].*2
  ∧ total_distance (interleave [(1, 4); (3, 9)])
    ≤ sum_int ((λ r, Z.abs (r.1 - r.2)) <$> [(3, 4); (1, 9)]).
Proof.
  assert ([(3, 4); (1, 9)].*1 ≡ₚ [(1, 4); (3, 9)].*1) as H1
    by apply perm_swap.
  assert ([(3, 4); (1, 9)].*2 ≡ₚ [(1, 4); (3, 9)].*2) as H2 by done.
  split; [exact H1|]. split; [exact H2|].
  exact (proj1 (total_distance_least [(1, 4); (3, 9)]) _ H1 H2).
Defined.

(** X20: when no left number occurs in the right column, the similarity
    score is 0. *)
Theorem similarity_score_disjoint (rows : list (Z * Z)) :
  (∀ a, a ∈ rows.*1 → a ∉ rows.*2) →
  similarity_score (interleave rows) = 0.
Proof.
  intros Hdisj. rewrite similarity_score_interleave.
  apply weighted_count_disjoint. intros a.
  rewrite !sorted_Permutation. apply Hdisj.
Qed.

Lemma similarity_score_disjoint_witness :
  (∀ a, a ∈ [(1, 2); (3, 4)].*1 → a ∉ [(1, 2); (3, 4)].*2)
  ∧ similarity_score (interleave [(1, 2); (3, 4)]) = 0.
Proof.
  assert (∀ a, a ∈ [(1, 2); (3, 4)].*1 → a ∉ [(1, 2); (3, 4)].*2) as Hdisj.
  { intros a Ha Hb. cbn in Ha, Hb.
    rewrite !elem_of_cons, elem_of_nil in Ha, Hb. lia. }
  split; [exact Hdisj|]. exact (similarity_score_disjoint _ Hdisj).
Defined.

(** ** Reading the input *)

Import Parse.

Section parse.
Context {char : Type} `{Text char}.
Implicit Types (s w x y : list char) (c sep : char).

Lemma split_cons_sep sep s : split sep (sep :: s) = [] :: split sep s.
Proof. cbn. by case_decide. Qed.

Lemma split_cons_other c sep s :
  c ≠ sep →
  split sep (c :: s)
  = match split sep s with w :: ws => (c :: w) :: ws | [] => [[c]] end.
Proof. intros Hne. cbn. by case_decide. Qed.

Lemma split_nonempty sep s : split sep s ≠ [].
Proof.
  destruct s as [|c s]; [done|]. cbn. case_decide; [done|].
  by destruct (split sep s).
Qed.

Lemma split_app_sep sep w s :
  sep ∉ w → split sep (w ++ sep :: s) = w :: split sep s.
Proof.
  induction w as [|c w IH]; intros Hnot; [apply split_cons_sep|].
  apply not_elem_of_cons in Hnot as [Hne Hnot]. cbn [app].
  rewrite split_cons_other by done. by rewrite IH.
Qed.

Lemma split_no_sep sep w : sep ∉ w → split sep w = [w].
Proof.
  induction w as [|c w IH]; intros Hnot; [done|].
  apply not_elem_of_cons in Hnot as [Hne Hnot].
  rewrite split_cons_other by done. by rewrite IH.
Qed.

Lemma split_elem sep s y : y ∈ split sep s → sep ∉ y.
Proof.
  revert y. induction s as [|c s IH]; intros y.
  - cbn. intros ->%list_elem_of_singleton. apply not_elem_of_nil.
  - destruct (decide (c = sep)) as [->|Hne].
    + rewrite split_cons_sep.
      intros [->|Hin]%elem_of_cons; [apply not_elem_of_nil|by apply IH].
    + rewrite split_cons_other by done.
      pose proof (split_nonempty sep s) as Hsplit.
      destruct (split sep s) as [|w ws]; [done|].
      intros [->|Hin]%elem_of_cons.
      * apply not_elem_of_cons. split; [done|]. apply IH. by left.
      * apply IH. by right.
Qed.

Lemma split_length sep s :
  length (split sep s) = S (length (filter (λ c, c = sep) s)).
Proof.
  induction s as [|c s IH]; [done|]. rewrite filter_cons.
  destruct (decide (c = sep)) as [->|Hne].
  - rewrite split_cons_sep. cbn [length]. by rewrite IH.
  - rewrite split_cons_other by done.
    pose proof (split_nonempty sep s) as Hsplit.
    by destruct (split sep s).
Qed.

Lemma split_join_lines (lines : list (list char)) :
  lines ≠ [] → Forall (λ x, newline ∉ x) lines →
  split newline (join_lines lines) = lines.
Proof.
  induction lines as [|x [|x' lines] IH]; intros Hne Hall; [done| |].
  - cbn. apply split_no_sep. by apply Forall_inv in Hall.
  - apply Forall_cons in Hall as [Hx Hall].
    change (join_lines (x :: x' :: lines))
      with (x ++ newline :: join_lines (x' :: lines)).
    rewrite split_app_sep by done. by rewrite IH.
Qed.

Lemma lstrip_all s : Forall (λ c, isspace c = true) s → lstrip s = [].
Proof. induction 1 as [|c s Hc _ IH]; [done|]. cbn. by rewrite Hc. Qed.

Lemma strip_all s : Forall (λ c, isspace c = true) s → strip s = [].
Proof. intros Hall. unfold strip. by rewrite lstrip_all. Qed.

Lemma lstrip_start c s : isspace c = false → lstrip (c :: s) = c :: s.
Proof. intros Hc. cbn. by rewrite Hc. Qed.

Lemma rstrip_end s c : isspace c = false → rstrip (s ++ [c]) = s ++ [c].
Proof.
  intros Hc. unfold rstrip. rewrite reverse_snoc, lstrip_start by done.
  by rewrite reverse_cons, reverse_involutive.
Qed.

Lemma tokens_elem x y : y ∈ tokens x → y ≠ [] ∧ space ∉ y.
Proof.
  unfold tokens. intros [Hne Hin]%list_elem_of_filter.
  split; [done|]. by eapply split_elem.
Qed.

Lemma parse_row_tokens x : parse_row x = mapM int (tokens x).
Proof. done. Qed.

Section space_is_white.
Hypothesis space_isspace : isspace space = true.

Lemma word_no_space w : word w → space ∉ w.
Proof.
  intros [_ Hall] Hin. rewrite Forall_forall in Hall.
  specialize (Hall _ Hin). congruence.
Qed.

Lemma lstrip_spaces (n : nat) s : lstrip (replicate n space ++ s) = lstrip s.
Proof. induction n as [|n IH]; [done|]. cbn. by rewrite space_isspace. Qed.

Lemma rstrip_spaces (n : nat) s : rstrip (s ++ replicate n space) = rstrip s.
Proof.
  unfold rstrip. by rewrite reverse_app, reverse_replicate, lstrip_spaces.
Qed.

Lemma word_start w : word w → ∃ c w', w = c :: w' ∧ isspace c = false.
Proof.
  intros [Hne Hall]. destruct w as [|c w']; [done|].
  exists c, w'. split; [done|]. by apply Forall_inv in Hall.
Qed.

Lemma word_end w : word w → ∃ w' c, w = w' ++ [c] ∧ isspace c = false.
Proof.
  intros [Hne Hall]. destruct w as [|c w' _] using rev_ind; [done|].
  exists w', c. split; [done|].
  apply Forall_app in Hall as [_ Hc]. by apply Forall_inv in Hc.
Qed.

Lemma packed_line_end w (rest : list (nat * list char)) :
  word w → Forall (λ kv, word kv.2) rest →
  ∃ s c, packed_line w rest = s ++ [c] ∧ isspace c = false.
Proof.
  revert w. induction rest as [|[k v] rest IH]; intros w Hw Hrest.
  - unfold packed_line. cbn. rewrite app_nil_r. by apply word_end.
  - apply Forall_cons in Hrest as [Hv Hrest].
    destruct (IH v Hv Hrest) as (s & c & Hs & Hc).
    exists (w ++ replicate (S k) space ++ s), c. split; [|done].
    unfold packed_line in *. rewrite fmap_cons, concat_cons.
    cbn [fst snd]. rewrite <- !app_assoc. do 2 f_equal.
    by rewrite Hs.
Qed.

Lemma strip_spaced_line (lead trail : nat) w (rest : list (nat * list char)) :
  word w → Forall (λ kv, word kv.2) rest →
  strip (spaced_line lead w rest trail) = packed_line w rest.
Proof.
  intros Hw Hrest. unfold strip, spaced_line. rewrite lstrip_spaces.
  assert (lstrip (packed_line w rest ++ replicate trail space)
          = packed_line w rest ++ replicate trail space) as ->.
  { destruct (word_start w Hw) as (c & w' & -> & Hc).
    unfold packed_line. cbn [app]. by apply lstrip_start. }
  rewrite rstrip_spaces.
  destruct (packed_line_end w rest Hw Hrest) as (s & c' & -> & Hc').
  by apply rstrip_end.
Qed.

Lemma tokens_skip_spaces (n : nat) s :
  filter (λ y, y ≠ []) (split space (replicate n space ++ s))
  = filter (λ y, y ≠ []) (split space s).
Proof.
  induction n as [|n IH]; [done|]. cbn [replicate app].
  rewrite split_cons_sep, filter_cons. by case_decide.
Qed.

Lemma tokens_packed_line w (rest : list (nat * list char)) :
  word w → Forall (λ kv, word kv.2) rest →
  filter (λ y, y ≠ []) (split space (packed_line w rest)) = w :: rest.*2.
Proof.
  revert w. induction rest as [|[k v] rest IH]; intros w Hw Hrest.
  - unfold packed_line. cbn. rewrite app_nil_r.
    rewrite split_no_sep by by apply word_no_space.
    rewrite filter_cons. destruct Hw as [Hne _]. by case_decide.
  - apply Forall_cons in Hrest as [Hv Hrest].
    assert (packed_line w ((k, v) :: rest)
            = w ++ space :: (replicate k space ++ packed_line v rest)) as ->.
    { unfold packed_line. rewrite fmap_cons, concat_cons. cbn [fst snd].
      cbn [replicate]. by rewrite <- !app_assoc. }
    rewrite split_app_sep by by apply word_no_space.
    rewrite filter_cons, tokens_skip_spaces, (IH v) by done.
    destruct Hw as [Hne _]. by case_decide.
Qed.

Lemma tokens_spaced_line (lead trail : nat) w (rest : list (nat * list char)) :
  word w → Forall (λ kv, word kv.2) rest →
  tokens (spaced_line lead w rest trail) = w :: rest.*2.
Proof.
  intros Hw Hrest. unfold tokens.
  rewrite strip_spaced_line by done. by apply tokens_packed_line.
Qed.

End space_is_white.
End parse.

(** X21: a line made of numerals separated by one space or more, with
    any number of spaces before and after, parses to the list of the
    values [int] gives the numerals: the empty pieces that the runs of
    spaces produce never reach [int]. *)
Theorem parse_row_spaced_line {char : Type} `{Text char} (lead trail : nat)
    (w : list char) (rest : list (nat * list char)) (nums : list Z) :
  isspace space = true →
  word w → Forall (λ kv, word kv.2) rest →
  Forall2 (λ v n, int v = Some n) (w :: rest.*2) nums →
  parse_row (spaced_line lead w rest trail) = Some nums.
Proof.
  intros Hspace Hw Hrest Hint.
  rewrite parse_row_tokens, tokens_spaced_line by done.
  by apply mapM_Some.
Qed.

Lemma parse_row_spaced_line_witness :
  @parse_row Z ascii_digits
    (@spaced_line Z ascii_digits 1 [55] [(0%nat, [54]); (2%nat, [52])] 3)
  = Some [7; 6; 4].
Proof.
  apply (@parse_row_spaced_line Z ascii_digits).
  - reflexivity.
  - split; [discriminate|]. repeat constructor.
  - repeat constructor; discriminate.
  - repeat constructor.
Defined.

(** X22: when the file holds white space only (or nothing), the data is
    the single empty row; part 1 then counts 1 safe row and part 2
    counts 0. *)
Theorem data_blank {char : Type} `{Text char} (content : list char) :
  Forall (λ c, isspace c = true) content →
  data content = Some [[]]
  ∧ safe_count_part1 [[]] = Ok 1 ∧ safe_count_part2 [[]] = Ok 0.
Proof.
  intros Hall. split; [|by split]. unfold data.
  by rewrite strip_all.
Qed.

Lemma data_blank_witness :
  Forall (λ c, @isspace Z ascii_digits c = true) [32; 10; 9; 10]
  ∧ @data Z ascii_digits [32; 10; 9; 10] = Some [[]].
Proof.
  assert (Forall (λ c, @isspace Z ascii_digits c = true) [32; 10; 9; 10])
    as Hall by (repeat constructor).
  split; [exact Hall|].
  exact (proj1 (@data_blank Z ascii_digits _ Hall)).
Defined.

(** X23: on every line, [int] is only called on strings that are not
    empty and hold no space, and the line parses exactly when [int]
    accepts each of these strings. *)
Theorem parse_row_int_arguments {char : Type} `{Text char} (x : list char) :
  (∀ y, y ∈ tokens x → y ≠ [] ∧ space ∉ y)
  ∧ (is_Some (parse_row x) ↔ ∀ y, y ∈ tokens x → is_Some (int y)).
Proof.
  split; [apply tokens_elem|].
  rewrite parse_row_tokens, mapM_is_Some, Forall_forall. done.
Qed.

Lemma parse_row_int_arguments_witness :
  [49] ≠ [] ∧ @space Z ascii_digits ∉ [49].
Proof.
  apply (proj1 (@parse_row_int_arguments Z ascii_digits [32; 49; 32; 32])).
  vm_compute. left.
Defined.

(** X24: when the file parses, the data has one row more than the
    stripped content has line breaks; in particular it is never empty. *)
Theorem data_rows {char : Type} `{Text char} (content : list char)
    (rows : list (list Z)) :
  data content = Some rows →
  length rows = S (length (filter (λ c, c = newline) (strip content)))
  ∧ rows ≠ [].
Proof.
  unfold data. intros Hrows. apply length_mapM in Hrows.
  rewrite split_length in Hrows. split; [done|]. by destruct rows.
Qed.

Lemma data_rows_witness :
  @data Z ascii_digits [49; 32; 50; 10; 10; 51] = Some [[1; 2]; []; [3]]
  ∧ length [[1; 2]; []; [3]]
    = S (length (filter (λ c, c = @newline Z ascii_digits)
                        (@strip Z ascii_digits [49; 32; 50; 10; 10; 51])))
  ∧ [[1; 2]; []; [3]] ≠ ([] : list (list Z)).
Proof.
  assert (@data Z ascii_digits [49; 32; 50; 10; 10; 51]
          = Some [[1; 2]; []; [3]]) as Hdata by (vm_compute; reflexivity).
  split; [exact Hdata|]. exact (@data_rows Z ascii_digits _ _ Hdata).
Defined.

(** X25: when the content has no white space at either end, it parses
    line by line: the data is the list of the rows of its lines, an
    empty line giving an empty row. *)
Theorem data_join_lines {char : Type} `{Text char}
    (lines : list (list char)) (rows : list (list Z)) :
  lines ≠ [] → Forall (λ x, newline ∉ x) lines →
  strip (join_lines lines) = join_lines lines →
  Forall2 (λ x row, parse_row x = Some row) lines rows →
  data (join_lines lines) = Some rows.
Proof.
  intros Hne Hnl Hstrip Hrows. unfold data.
  rewrite Hstrip, split_join_lines by done. by apply mapM_Some.
Qed.

Lemma data_join_lines_witness :
  @data Z ascii_digits (@join_lines Z ascii_digits [[49; 32; 50]; []; [51]])
  = Some [[1; 2]; []; [3]].
Proof.
  apply (@data_join_lines Z ascii_digits).
  - discriminate.
  - apply (bool_decide_unpack _). vm_compute. exact I.
  - vm_compute. reflexivity.
  - repeat constructor.
Defined.

Section split_white.
Context {char : Type} `{Text char}.
Implicit Types (s w g : list char) (c : char).

Lemma split_white_white c s :
  isspace c = true → split_white (c :: s) = split_white s.
Proof. intros Hc. cbn. by rewrite Hc. Qed.

Lemma split_white_skip g s :
  Forall (λ c, isspace c = true) g → split_white (g ++ s) = split_white s.
Proof.
  induction 1 as [|c g Hc _ IH]; [done|].
  cbn [app]. by rewrite split_white_white.
Qed.

Lemma split_white_all g :
  Forall (λ c, isspace c = true) g → split_white g = [].
Proof.
  intros Hg. rewrite <- (app_nil_r g). by rewrite split_white_skip.
Qed.

Lemma split_white_word w c s :
  word w → isspace c = true →
  split_white (w ++ c :: s) = w :: split_white s.
Proof.
  intros [Hne Hall] Hc. induction w as [|a [|b w] IH]; [done| |].
  - apply Forall_inv in Hall. cbn. by rewrite Hall, Hc.
  - apply Forall_cons in Hall as [Ha Hall].
    pose proof (Forall_inv Hall) as Hb. cbn in Hb.
    specialize (IH ltac:(done) Hall).
    change (split_white ((a :: b :: w) ++ c :: s))
      with (if isspace a then split_white ((b :: w) ++ c :: s)
            else if isspace b then [a] :: split_white ((b :: w) ++ c :: s)
            else match split_white ((b :: w) ++ c :: s) with
                 | v :: vs => (a :: v) :: vs
                 | [] => [[a]]
                 end).
    by rewrite Ha, Hb, IH.
Qed.

Lemma split_white_word_end w : word w → split_white w = [w].
Proof.
  intros [Hne Hall]. induction w as [|a [|b w] IH]; [done| |].
  - apply Forall_inv in Hall. cbn. by rewrite Hall.
  - apply Forall_cons in Hall as [Ha Hall].
    pose proof (Forall_inv Hall) as Hb. cbn in Hb.
    specialize (IH ltac:(done) Hall).
    change (split_white (a :: b :: w))
      with (if isspace a then split_white (b :: w)
            else if isspace b then [a] :: split_white (b :: w)
            else match split_white (b :: w) with
                 | v :: vs => (a :: v) :: vs
                 | [] => [[a]]
                 end).
    by rewrite Ha, Hb, IH.
Qed.

Lemma split_white_word_trail w g :
  word w → Forall (λ c, isspace c = true) g → split_white (w ++ g) = [w].
Proof.
  intros Hw Hg. destruct Hg as [|c g Hc Hg].
  - rewrite app_nil_r. by apply split_white_word_end.
  - rewrite split_white_word by done. by rewrite split_white_all.
Qed.

Lemma split_white_text lead w (rest : list (list char * list char)) trail :
  Forall (λ c, isspace c = true) lead →
  word w → Forall (λ gv, gap gv.1 ∧ word gv.2) rest →
  Forall (λ c, isspace c = true) trail →
  split_white (white_text lead w rest trail) = w :: rest.*2.
Proof.
  intros Hlead Hw Hrest Htrail. unfold white_text.
  rewrite split_white_skip by done. clear lead Hlead.
  revert w Hw. induction Hrest as [|[g v] rest [Hg Hv] _ IH]; intros w Hw.
  - cbn. by apply split_white_word_trail.
  - rewrite fmap_cons, concat_cons. cbn [fst snd] in *.
    destruct Hg as [Hne Hg]. destruct g as [|c g]; [done|].
    apply Forall_cons in Hg as [Hc Hg].
    rewrite <- !app_assoc. cbn [app].
    rewrite split_white_word by done.
    rewrite split_white_skip by done.
    by rewrite IH.
Qed.

(** Every piece of [s.split()] is a word. *)
Lemma split_white_elem s y : y ∈ split_white s → word y.
Proof.
  revert y. induction s as [|c s IH]; intros y.
  { cbn. intros Hin. by apply elem_of_nil in Hin. }
  destruct (isspace c) eqn:Hc;
    [rewrite split_white_white by done; apply IH|].
  destruct s as [|c' s].
  { cbn. rewrite Hc. intros ->%list_elem_of_singleton.
    split; [done|]. by repeat constructor. }
  change (split_white (c :: c' :: s))
    with (if isspace c then split_white (c' :: s)
          else if isspace c' then [c] :: split_white (c' :: s)
          else match split_white (c' :: s) with
               | v :: vs => (c :: v) :: vs
               | [] => [[c]]
               end).
  rewrite Hc. destruct (isspace c') eqn:Hc'.
  - intros [->|Hin]%elem_of_cons; [|by apply IH].
    split; [done|]. by repeat constructor.
  - destruct (split_white (c' :: s)) as [|v vs].
    + intros ->%list_elem_of_singleton. split; [done|]. by repeat constructor.
    + intros [->|Hin]%elem_of_cons.
      * destruct (IH v) as [_ Hv]; [by left|]. split; [done|]. by constructor.
      * apply IH. by right.
Qed.

End split_white.

(** X26: a Day 1 text made of numerals separated by runs of white space
    (spaces, line breaks, ...), with any white space before and after,
    is read as the list of the values [int] gives the numerals. *)
Theorem flat_data_white_text {char : Type} `{Text char}
    (lead w : list char) (rest : list (list char * list char))
    (trail : list char) (nums : list Z) :
  Forall (λ c, isspace c = true) lead →
  word w → Forall (λ gv, gap gv.1 ∧ word gv.2) rest →
  Forall (λ c, isspace c = true) trail →
  Forall2 (λ v n, int v = Some n) (w :: rest.*2) nums →
  flat_data (white_text lead w rest trail) = Some nums.
Proof.
  intros Hlead Hw Hrest Htrail Hint. unfold flat_data.
  rewrite split_white_text by done. by apply mapM_Some.
Qed.

Lemma flat_data_white_text_witness :
  @flat_data Z ascii_digits
    (white_text [] [51]
       [([32; 32; 32], [52]); ([10], [52]); ([32; 9], [51])] [10])
  = Some [3; 4; 4; 3].
Proof.
  apply (@flat_data_white_text Z ascii_digits).
  - constructor.
  - split; [discriminate|]. repeat constructor.
  - repeat constructor; discriminate.
  - repeat constructor.
  - repeat constructor.
Defined.

(** X27: on every text, Day 1 calls [int] only on strings that are not
    empty and hold no white space, and the text is read exactly when
    [int] accepts each of them; a text of white space only gives the
    empty data and both printed numbers are 0. *)
Theorem flat_data_int_arguments {char : Type} `{Text char}
    (content : list char) :
  (∀ y, y ∈ split_white content → word y)
  ∧ (is_Some (flat_data content) ↔
     ∀ y, y ∈ split_white content → is_Some (int y))
  ∧ (Forall (λ c, isspace c = true) content →
     flat_data content = Some [] ∧ output [] = (0, 0)).
Proof.
  split_and!.
  - apply split_white_elem.
  - unfold flat_data. by rewrite mapM_is_Some, Forall_forall.
  - intros Hall. unfold flat_data. by rewrite split_white_all.
Qed.

Lemma flat_data_int_arguments_witness :
  @word Z ascii_digits [49; 50]
  ∧ @flat_data Z ascii_digits [32; 10] = Some [].
Proof.
  split.
  - apply (proj1 (@flat_data_int_arguments Z ascii_digits [32; 49; 50; 10])).
    vm_compute. left.
  - apply (@flat_data_int_arguments Z ascii_digits [32; 10]).
    repeat constructor.
Defined.

(** X28: an empty row, as a blank line of the file produces, adds 1 to
    the count of part 1 and nothing to the count of part 2. *)
Theorem safe_counts_empty_row (rows : list (list Z)) :
  safe_count_part1 ([] :: rows) = (n ← safe_count_part1 rows; Ok (n + 1))
  ∧ safe_count_part2 ([] :: rows) = safe_count_part2 rows.
Proof.
  rewrite !safe_count_part1_eq, !safe_count_part2_eq.
  unfold Py.len, safe_rows, tolerated_rows. rewrite !filter_cons.
  assert (is_safe [] = Ok true) as Hsafe by (apply is_safe_short; cbn; lia).
  assert (any_removal_safe [] ≠ Ok true) as Hnone by done.
  repeat case_decide; try done. split; [|done].
  cbn [mbind result_bind length]. f_equal. lia.
Qed.
